(** * The Enigma machine of [enigma.js]

    A shallow embedding of the rotor / plugboard / reflector core of the
    script ([mod], [ROTORS], [REFLECTOR], [plugboardSwap], the classes
    [Rotor] and [Enigma]) and the properties the specification states
    about it.

    Conventions of the embedding.
    - A JavaScript one-character string is an [ascii]; the texts covered
      are 7-bit ASCII, on which [String.prototype.toUpperCase] maps
      [a..z] to [A..Z] and fixes every other character. Beyond ASCII
      the method can lengthen a text; [toUpperCaseLatin] and
      [processLatin] follow it on the code units up to U+00FF, and the
      properties of [process] on whole texts are stated for ASCII.
    - A JavaScript number is an integer of [Z] (positions, ring settings,
      rotor identifiers and string indices are integers in the script).
      The script computes in binary64, which is exact on the sums it
      forms as long as the settings stay within [exactInt]; the
      properties that go beyond the settings [0..25] are stated within
      that range.
    - A string lookup [s[i]] past either end is the value [undefined];
      the embedding keeps it as the constructor [Undefined] of [value]
      and lets it flow on exactly as the script does
      ([s.indexOf(undefined)] searches for the text "undefined").
    - A property access on [undefined] throws a [TypeError]; the
      embedding keeps it as the constructor [TypeError] of [completion].
    - The object state of an [Enigma] is passed explicitly: a method
      that mutates [this] returns the new machine. *)

From Stdlib Require Import ZArith List Bool Ascii String Lia.
Import ListNotations.

Local Open Scope string_scope.
Local Open Scope Z_scope.

(** ** JavaScript values and completions *)

(** What a variable holding "a character" can hold in the script. *)
Inductive value : Type :=
| Chr (c : ascii)
| Undefined.

(** [String(v)], the conversion [indexOf] and [join] apply. *)
Definition toString (v : value) : string :=
  match v with
  | Chr c => String c EmptyString
  | Undefined => "undefined"
  end.

(** [v === w] on such values. *)
Definition strictEq (v w : value) : bool :=
  match v, w with
  | Chr c, Chr d => Ascii.eqb c d
  | Undefined, Undefined => true
  | _, _ => false
  end.

(** The outcome of a call: a normal return or a thrown [TypeError]. *)
Inductive completion (A : Type) : Type :=
| Normal (a : A)
| TypeError.
Arguments Normal {A} a.
Arguments TypeError {A}.

Definition bind {A B : Type} (m : completion A) (k : A -> completion B)
  : completion B :=
  match m with
  | Normal a => k a
  | TypeError => TypeError
  end.

Notation "x <- m ;; k" := (bind m (fun x => k))
  (at level 61, m at next level, right associativity).
Notation "' pat <- m ;; k" := (bind m (fun x => match x with pat => k end))
  (at level 61, pat pattern, m at next level, right associativity).

(** ** Strings *)

(** [s[i]] for an integer [i]. *)
Definition charAt (s : string) (i : Z) : value :=
  if i <? 0 then Undefined
  else match String.get (Z.to_nat i) s with
       | Some c => Chr c
       | None => Undefined
       end.

(** [s.indexOf(v)]: the first index at which the text of [v] occurs in
    [s], and [-1] when it does not occur. *)
Definition indexOf (s : string) (v : value) : Z :=
  match String.index 0 (toString v) s with
  | Some n => Z.of_nat n
  | None => -1
  end.

(** [s.includes(v)]. *)
Definition includes (s : string) (v : value) : bool :=
  match String.index 0 (toString v) s with
  | Some _ => true
  | None => false
  end.

(** The lowercase letters [a..z]. *)
Definition isLower (c : ascii) : bool :=
  ((97 <=? N_of_ascii c) && (N_of_ascii c <=? 122))%N.

(** [toUpperCase] on one 7-bit character and on a text. *)
Definition toUpperCaseChar (c : ascii) : ascii :=
  if isLower c then ascii_of_N (N_of_ascii c - 32) else c.

Fixpoint toUpperCase (s : string) : string :=
  match s with
  | EmptyString => EmptyString
  | String c s' => String (toUpperCaseChar c) (toUpperCase s')
  end.

(** [vs.join('')]: [undefined] elements contribute the empty string. *)
Fixpoint join (vs : list value) : string :=
  match vs with
  | [] => EmptyString
  | Chr c :: vs' => String c (join vs')
  | Undefined :: vs' => join vs'
  end.

(** The characters below 128. *)
Definition ascii7 (c : ascii) : bool := (N_of_ascii c <? 128)%N.

(** ** Constants of the script *)

Definition alphabet : string := "ABCDEFGHIJKLMNOPQRSTUVWXYZ".

(** [mod(n, m)]: [%] is the remainder of the truncated division. *)
Definition mod_ (n m : Z) : Z := Z.rem (Z.rem n m + m) m.

Record RotorSpec : Type := mkRotorSpec {
  spec_wiring : string;
  spec_notch : ascii
}.

Definition ROTORS : list RotorSpec :=
  [ mkRotorSpec "EKMFLGDQVZNTOWYHXUSPAIBRCJ" "Q" (* Rotor I *)
  ; mkRotorSpec "AJDKSIRUXBLHWTMCQGZNPYFVOE" "E" (* Rotor II *)
  ; mkRotorSpec "BDFHJLCPRTXVZNYEIWGAKMUSQO" "V" (* Rotor III *)
  ].

Definition REFLECTOR : string := "YRUHQSLDPXNGOKMIEBFZCWVJAT".

(** ** The plugboard *)

(** The [for ... of] loop of [plugboardSwap]: the first pair that holds
    [c] decides. *)
Fixpoint plugboardSwap (c : value) (pairs : list (ascii * ascii)) : value :=
  match pairs with
  | [] => c
  | (a, b) :: rest =>
      if strictEq c (Chr a) then Chr b
      else if strictEq c (Chr b) then Chr a
      else plugboardSwap c rest
  end.

(** ** class Rotor *)

Record Rotor : Type := mkRotor {
  wiring : string;
  notch : ascii;
  ringSetting : Z;
  position : Z
}.

Definition step (r : Rotor) : Rotor :=
  mkRotor (wiring r) (notch r) (ringSetting r) (mod_ (position r + 1) 26).

Definition atNotch (r : Rotor) : bool :=
  strictEq (charAt alphabet (position r)) (Chr (notch r)).

Definition forward (r : Rotor) (c : value) : value :=
  let idx := mod_ (indexOf alphabet c + position r - ringSetting r) 26 in
  charAt (wiring r) idx.

Definition backward (r : Rotor) (c : value) : value :=
  let idx := indexOf (wiring r) c in
  charAt alphabet (mod_ (idx - position r + ringSetting r) 26).

(** ** class Enigma *)

Record Enigma : Type := mkEnigma {
  rotors : list Rotor;
  plugboardPairs : list (ascii * ascii)
}.

(** [a[i]] on an array, [None] standing for [undefined]. *)
Definition arrayGet {A : Type} (l : list A) (i : Z) : option A :=
  if i <? 0 then None else nth_error l (Z.to_nat i).

(** A default parameter [x = 0] takes its default when the argument is
    [undefined]. *)
Definition orDefault (o : option Z) (d : Z) : Z :=
  match o with Some x => x | None => d end.

(** The callback of [rotorIDs.map] in the constructor, at index [i]:
    [ROTORS[id].wiring] throws when [ROTORS[id]] is [undefined]. *)
Definition newRotor (ringSettings rotorPositions : list Z) (id i : Z)
  : completion Rotor :=
  match arrayGet ROTORS id with
  | Some s =>
      Normal (mkRotor (spec_wiring s) (spec_notch s)
                (orDefault (arrayGet ringSettings i) 0)
                (orDefault (arrayGet rotorPositions i) 0))
  | None => TypeError
  end.

Fixpoint mapRotors (ringSettings rotorPositions : list Z)
  (ids : list Z) (i : Z) : completion (list Rotor) :=
  match ids with
  | [] => Normal []
  | id :: ids' =>
      r <- newRotor ringSettings rotorPositions id i ;;
      rs <- mapRotors ringSettings rotorPositions ids' (i + 1) ;;
      Normal (r :: rs)
  end.

(** The arguments of [new Enigma(...)]. *)
Record Config : Type := mkConfig {
  rotorIDs : list Z;
  rotorPositions : list Z;
  ringSettings : list Z;
  plugPairs : list (ascii * ascii)
}.

(** [new Enigma(rotorIDs, rotorPositions, ringSettings, plugboardPairs)]. *)
Definition newEnigma (cfg : Config) : completion Enigma :=
  rs <- mapRotors (ringSettings cfg) (rotorPositions cfg) (rotorIDs cfg) 0 ;;
  Normal (mkEnigma rs (plugPairs cfg)).

(** [rs[i] = f(rs[i])]; used only where [rs[i]] exists. *)
Fixpoint update (i : nat) (f : Rotor -> Rotor) (rs : list Rotor) : list Rotor :=
  match rs, i with
  | [], _ => []
  | r :: rs', O => f r :: rs'
  | r :: rs', S i' => r :: update i' f rs'
  end.

(** [stepRotors]: both notch tests are read first; reading
    [this.rotors[1]] or [this.rotors[2]] throws when the machine has
    fewer than three rotors. *)
Definition stepRotors (e : Enigma) : completion Enigma :=
  match nth_error (rotors e) 1, nth_error (rotors e) 2 with
  | Some m, Some r =>
      let middleAtNotch := atNotch m in
      let rightAtNotch := atNotch r in
      let rs := rotors e in
      let rs := if middleAtNotch then update 1 step (update 0 step rs) else rs in
      let rs := if rightAtNotch then update 1 step rs else rs in
      let rs := update 2 step rs in
      Normal (mkEnigma rs (plugboardPairs e))
  | _, _ => TypeError
  end.

(** The forward loop runs [i] from the last rotor down to the first,
    the backward loop from the first up to the last. *)
Definition forwardPass (rs : list Rotor) (c : value) : value :=
  fold_right forward c rs.

Definition backwardPass (rs : list Rotor) (c : value) : value :=
  fold_left (fun c r => backward r c) rs c.

Definition reflect (c : value) : value :=
  charAt REFLECTOR (indexOf alphabet c).

(** The signal path of [encryptChar], after the stepping. *)
Definition signal (e : Enigma) (c : value) : value :=
  let c := plugboardSwap c (plugboardPairs e) in
  let c := forwardPass (rotors e) c in
  let c := reflect c in
  let c := backwardPass (rotors e) c in
  plugboardSwap c (plugboardPairs e).

Definition encryptChar (e : Enigma) (c : ascii) : completion (Enigma * value) :=
  if negb (includes alphabet (Chr c)) then Normal (e, Chr c)
  else
    e' <- stepRotors e ;;
    Normal (e', signal e' (Chr c)).

(** [cs.map((c) => this.encryptChar(c))], left to right. *)
Fixpoint mapEncrypt (e : Enigma) (cs : list ascii)
  : completion (Enigma * list value) :=
  match cs with
  | [] => Normal (e, [])
  | c :: cs' =>
      '(e1, v) <- encryptChar e c ;;
      '(e2, vs) <- mapEncrypt e1 cs' ;;
      Normal (e2, v :: vs)
  end.

Definition process (e : Enigma) (text : string) : completion (Enigma * string) :=
  '(e', vs) <- mapEncrypt e (list_ascii_of_string (toUpperCase text)) ;;
  Normal (e', join vs).

(** A fresh machine built from [cfg] and run once over [text]. *)
Definition run (cfg : Config) (text : string) : completion string :=
  e <- newEnigma cfg ;;
  '(_, out) <- process e text ;;
  Normal out.

(** The configuration behind [createEnigma] of the test suite: rotors
    I, II, III in that order. *)
Definition testConfig (positions rings : list Z) (pairs : list (ascii * ascii))
  : Config :=
  mkConfig [0; 1; 2] positions rings pairs.

(** ** Validity of a configuration and of a machine *)

Definition isLetter (c : ascii) : bool := includes alphabet (Chr c).

Definition inRange (n : Z) : bool := (0 <=? n) && (n <=? 25).

(** Each letter appears in at most one pair: the two members of a pair
    occur in no later pair. *)
Fixpoint disjointPairs (pairs : list (ascii * ascii)) : bool :=
  match pairs with
  | [] => true
  | (a, b) :: rest =>
      forallb (fun p => negb (Ascii.eqb a (fst p)) && negb (Ascii.eqb a (snd p))
                        && negb (Ascii.eqb b (fst p)) && negb (Ascii.eqb b (snd p)))
              rest
      && disjointPairs rest
  end.

Definition letterPairs (pairs : list (ascii * ascii)) : bool :=
  forallb (fun p => isLetter (fst p) && isLetter (snd p)) pairs.

Definition validPairs (pairs : list (ascii * ascii)) : bool :=
  letterPairs pairs && disjointPairs pairs.

Definition inCatalog (id : Z) : bool :=
  match arrayGet ROTORS id with Some _ => true | None => false end.

(** The configurations the specification calls valid: exactly three
    catalog rotor identifiers, three positions and three ring settings
    in [0,25], disjoint pairs of letters. *)
Definition validConfig (cfg : Config) : bool :=
  (List.length (rotorIDs cfg) =? 3)%nat && forallb inCatalog (rotorIDs cfg)
  && (List.length (rotorPositions cfg) =? 3)%nat && forallb inRange (rotorPositions cfg)
  && (List.length (ringSettings cfg) =? 3)%nat && forallb inRange (ringSettings cfg)
  && validPairs (plugPairs cfg).

(** A rotor of the catalog, at any setting in range. *)
Definition catalogRotor (r : Rotor) : bool :=
  existsb (fun s => String.eqb (wiring r) (spec_wiring s)
                    && Ascii.eqb (notch r) (spec_notch s)) ROTORS.

Definition validRotor (r : Rotor) : bool :=
  catalogRotor r && inRange (ringSetting r) && inRange (position r).

(** The machines a valid configuration gives rise to. *)
Definition validMachine (e : Enigma) : bool :=
  (List.length (rotors e) =? 3)%nat && forallb validRotor (rotors e)
  && validPairs (plugboardPairs e).

(** The states a machine built from [cfg] can be in: the fresh machine,
    and whatever [encryptChar] leaves behind. *)
Inductive reachable (cfg : Config) : Enigma -> Prop :=
| reach_new e : newEnigma cfg = Normal e -> reachable cfg e
| reach_step e c e' v :
    reachable cfg e -> encryptChar e c = Normal (e', v) -> reachable cfg e'.

(** ** Auxiliary notions of the proofs *)

Definition letters : list ascii := list_ascii_of_string alphabet.

Definition indices : list Z := map Z.of_nat (seq 0 26).

(** [w] holds a letter at each of the 26 indices, [indexOf] finds it
    there, and every letter is found at an index whose entry it is. *)
Definition permTable (w : string) : bool :=
  forallb (fun i => match charAt w i with
                    | Chr c => isLetter c && (indexOf w (Chr c) =? i)
                    | Undefined => false
                    end) indices
  && forallb (fun c => inRange (indexOf w (Chr c))
                       && strictEq (charAt w (indexOf w (Chr c))) (Chr c))
             letters.

(** Neither [a] nor [b] occurs in a pair of [rest]. *)
Definition apart (a b : ascii) (rest : list (ascii * ascii)) : Prop :=
  forall p, In p rest -> a <> fst p /\ a <> snd p /\ b <> fst p /\ b <> snd p.

(** The check the 26 letters pass: the reflector sends a letter to a
    different letter, and that one back. *)
Definition reflectorCheck (c : ascii) : bool :=
  match reflect (Chr c) with
  | Chr d => isLetter d && negb (Ascii.eqb d c) && strictEq (reflect (Chr d)) (Chr c)
  | Undefined => false
  end.

Definition permRotors (rs : list Rotor) : Prop :=
  Forall (fun r => permTable (wiring r) = true) rs.

(** What the signal path needs of a machine: rotor wirings that are
    permutations of the alphabet and a plugboard of disjoint pairs of
    letters. *)
Definition soundMachine (e : Enigma) : Prop :=
  permRotors (rotors e) /\ validPairs (plugboardPairs e) = true.

(** What a keystroke does to a character, as seen from outside: a letter
    comes out as a different letter, any other character as itself. *)
Definition keyed (c d : ascii) : Prop :=
  if isLetter c then isLetter d = true /\ d <> c else d = c.

Definition lettersOnly (text : string) : bool :=
  forallb isLetter (list_ascii_of_string text).

Definition asciiText (text : string) : bool :=
  forallb ascii7 (list_ascii_of_string text).

(** The machine a completed call leaves behind. *)
Definition stateAfter {A : Type} (r : completion (Enigma * A)) : completion Enigma :=
  x <- r ;; Normal (fst x).

(** The rotor the constructor builds for the identifier at index [k]. *)
Definition builtRotor (cfg : Config) (k : nat) (id : Z) (r : Rotor) : Prop :=
  exists s, arrayGet ROTORS id = Some s
            /\ r = mkRotor (spec_wiring s) (spec_notch s)
                     (orDefault (arrayGet (ringSettings cfg) (Z.of_nat k)) 0)
                     (orDefault (arrayGet (rotorPositions cfg) (Z.of_nat k)) 0).

(** ** The plugboard prompt of [promptEnigma] *)

(** The character class [[A-Z]] of the regular expression. *)
Definition isUpperAZ (c : ascii) : bool :=
  ((65 <=? N_of_ascii c) && (N_of_ascii c <=? 90))%N.

(** [s.match(/([A-Z]{2})/g)]: the scan looks for two capitals in a row
    at the current index, takes them and resumes after them, or moves
    one character on; the [?.map] turns each match [pair] into
    [[pair[0], pair[1]]] and [|| []] turns the [null] of "no match"
    into the empty list. *)
Fixpoint matchPairs (s : string) : list (ascii * ascii) :=
  match s with
  | String a s' =>
      match s' with
      | String b rest =>
          if isUpperAZ a && isUpperAZ b then (a, b) :: matchPairs rest
          else matchPairs s'
      | EmptyString => []
      end
  | EmptyString => []
  end.

(** The value of [plugPairs] in [promptEnigma] for the answer [plugStr]. *)
Definition parsePlugPairs (plugStr : string) : list (ascii * ascii) :=
  matchPairs (toUpperCase plugStr).

(** The way the prompt asks for the pairs ("e.g. AB CD"): two-letter
    words, one space after each but the last. *)
Fixpoint writePairs (pairs : list (ascii * ascii)) : string :=
  match pairs with
  | [] => EmptyString
  | [(a, b)] => String a (String b EmptyString)
  | (a, b) :: rest => String a (String b (String " " (writePairs rest)))
  end.

(** ** Notions of the further properties *)

(** [n] calls of [step] on a rotor. *)
Fixpoint stepTimes (n : nat) (r : Rotor) : Rotor :=
  match n with
  | O => r
  | S n' => step (stepTimes n' r)
  end.

(** [n] calls of [stepRotors] in a row. *)
Fixpoint stepRotorsTimes (n : nat) (e : Enigma) : completion Enigma :=
  match n with
  | O => Normal e
  | S n' => e' <- stepRotors e ;; stepRotorsTimes n' e'
  end.

Definition countLetters (cs : list ascii) : nat :=
  List.length (filter isLetter cs).

(** What no method assigns: wiring, notch and ring setting. *)
Definition fixedPart (r : Rotor) : string * ascii * Z :=
  (wiring r, notch r, ringSetting r).

(** A machine the signal path works on, whatever its positions and ring
    settings: at least three rotors, each wired as a permutation of the
    alphabet, and disjoint pairs of letters on the plugboard. *)
Definition usableMachine (e : Enigma) : Prop :=
  (3 <= List.length (rotors e))%nat /\ soundMachine e.

(** The configurations that give such machines: three or more catalog
    identifiers and disjoint pairs of letters; positions and ring
    settings are any integers, in any number. *)
Definition usableConfig (cfg : Config) : bool :=
  (3 <=? List.length (rotorIDs cfg))%nat && forallb inCatalog (rotorIDs cfg)
  && validPairs (plugPairs cfg).

(** Some pair of [pairs] holds [c]. *)
Definition plugged (c : value) (pairs : list (ascii * ascii)) : Prop :=
  exists a b, In (a, b) pairs /\ (c = Chr a \/ c = Chr b).

(** Two pair lists with the same cables: each pair of one is in the
    other, in either orientation. *)
Definition sameCables (pairs pairs' : list (ascii * ascii)) : Prop :=
  forall a b, (In (a, b) pairs -> In (a, b) pairs' \/ In (b, a) pairs')
              /\ (In (a, b) pairs' -> In (a, b) pairs \/ In (b, a) pairs).

(** A text without a letter of either case. *)
Definition plainText (text : string) : bool :=
  forallb (fun c => negb (isLetter c || isLower c)) (list_ascii_of_string text).

(** ** The range in which the embedding is exact *)

(** Settings of magnitude at most 2^51: the sums
    [index + position - ringSetting] and [position + 1] of the script
    then stay below 2^53, where binary64 holds every integer. *)
Definition exactInt (n : Z) : bool := (- 2 ^ 51 <=? n) && (n <=? 2 ^ 51).

Definition exactRotor (r : Rotor) : bool :=
  exactInt (position r) && exactInt (ringSetting r).

Definition exactMachine (e : Enigma) : bool := forallb exactRotor (rotors e).

Definition exactSettings (cfg : Config) : bool :=
  forallb exactInt (rotorPositions cfg) && forallb exactInt (ringSettings cfg).

(** [toUpperCase] of one code unit up to U+00FF, as a text: [a..z] and
    the accented lowercase letters U+00E0..U+00FE (the division sign
    U+00F7 apart) lose 32, the sharp s U+00DF becomes the two letters
    "SS", every other code unit is kept. The uppercase forms of the
    micro sign U+00B5 and of U+00FF lie beyond U+00FF: [None]. *)
Definition upperLatin (c : ascii) : option string :=
  let n := N_of_ascii c in
  if isLower c then Some (String (ascii_of_N (n - 32)) EmptyString)
  else if (n =? 223)%N then Some "SS"
  else if ((n =? 181) || (n =? 255))%N then None
  else if ((224 <=? n) && (n <=? 254) && negb (n =? 247))%N
       then Some (String (ascii_of_N (n - 32)) EmptyString)
  else Some (String c EmptyString).

(** [text.toUpperCase()] on a text of code units up to U+00FF. *)
Fixpoint toUpperCaseLatin (s : string) : option string :=
  match s with
  | EmptyString => Some EmptyString
  | String c s' =>
      match upperLatin c, toUpperCaseLatin s' with
      | Some u, Some us => Some (u ++ us)%string
      | _, _ => None
      end
  end.

(** [process] on such a text; it is [process] on 7-bit ASCII. *)
Definition processLatin (e : Enigma) (text : string)
  : option (completion (Enigma * string)) :=
  match toUpperCaseLatin text with
  | Some upper =>
      Some ('(e', vs) <- mapEncrypt e (list_ascii_of_string upper) ;;
            Normal (e', join vs))
  | None => None
  end.

(** * Properties *)

(** ** The script on the inputs of its test suite *)

Example mod_tests : mod_ 5 3 = 2 /\ mod_ (-1) 26 = 25 /\ mod_ (-27) 26 = 25.
Proof. repeat split. Qed.

Example plugboardSwap_tests :
  plugboardSwap (Chr "A") [("A", "B")]%char = Chr "B"
  /\ plugboardSwap (Chr "B") [("A", "B")]%char = Chr "A"
  /\ plugboardSwap (Chr "C") [("A", "B")]%char = Chr "C"
  /\ plugboardSwap (Chr "A") [] = Chr "A".
Proof. repeat split. Qed.

Example atNotch_tests :
  atNotch (mkRotor "EKMFLGDQVZNTOWYHXUSPAIBRCJ" "Q" 0 16) = true
  /\ atNotch (mkRotor "EKMFLGDQVZNTOWYHXUSPAIBRCJ" "Q" 0 15) = false.
Proof. split; reflexivity. Qed.

Example run_A : run (testConfig [0; 0; 0] [0; 0; 0] []) "A" = Normal "D".
Proof. vm_compute. reflexivity. Qed.

Example double_stepping_test :
  (e <- newEnigma (testConfig [0; 4; 0] [0; 0; 0] []) ;;
   r <- stateAfter (process e "A") ;;
   Normal (map position (rotors r)))
  = Normal [1; 5; 1].
Proof. vm_compute. reflexivity. Qed.

Example right_notch_test :
  (e <- newEnigma (testConfig [0; 0; 21] [0; 0; 0] []) ;;
   r <- stateAfter (process e "A") ;;
   Normal (map position (rotors r)))
  = Normal [0; 1; 22].
Proof. vm_compute. reflexivity. Qed.

Example case_test :
  (ct <- run (testConfig [0; 0; 0] [0; 0; 0] []) "hello" ;;
   run (testConfig [0; 0; 0] [0; 0; 0] []) ct)
  = Normal "HELLO".
Proof. vm_compute. reflexivity. Qed.

(** ** Proof steps used throughout *)

(** Splits every boolean conjunction known to be [true]. *)
Ltac andb_hyps :=
  repeat match goal with
         | H : _ && _ = true |- _ => apply andb_true_iff in H as [? ?]
         end.

(** Turns the negated character tests among the hypotheses into
    disequalities. *)
Ltac neqb_hyps :=
  repeat match goal with
         | H : negb (Ascii.eqb _ _) = true |- _ =>
             apply negb_true_iff, Ascii.eqb_neq in H
         end.

(** ** Arithmetic of [mod] *)

Lemma mod_spec (n : Z) : mod_ n 26 = n mod 26.
Proof.
  unfold mod_.
  pose proof (Z.rem_bound_abs n 26 ltac:(lia)) as Hb.
  pose proof (Z.quot_rem' n 26) as Hq.
  rewrite Z.rem_mod_nonneg by lia.
  replace (Z.rem n 26 + 26) with (n + (1 - n ÷ 26) * 26) by lia.
  apply Z.mod_add. lia.
Qed.

Lemma mod_range (n : Z) : 0 <= mod_ n 26 < 26.
Proof. rewrite mod_spec. apply Z.mod_pos_bound. lia. Qed.

Lemma mod_small (n : Z) : 0 <= n < 26 -> mod_ n 26 = n.
Proof. intros H. rewrite mod_spec. apply Z.mod_small. exact H. Qed.

(** Undoing an offset: the index arithmetic of [backward] after
    [forward], and of [forward] after [backward]. *)
Lemma mod_cancel (i d : Z) :
  0 <= i < 26 -> mod_ (mod_ (i + d) 26 - d) 26 = i.
Proof.
  intros Hi. rewrite !mod_spec.
  rewrite Zminus_mod_idemp_l.
  replace (i + d - d) with i by lia.
  apply Z.mod_small. exact Hi.
Qed.

(** ** The 26 letters and the 26 indices, as finite domains *)

Lemma isLetter_existsb (c : ascii) :
  isLetter c = existsb (Ascii.eqb c) letters.
Proof. destruct c as [[] [] [] [] [] [] [] []]; reflexivity. Qed.

Lemma isLetter_In (c : ascii) : isLetter c = true <-> In c letters.
Proof.
  rewrite isLetter_existsb, existsb_exists. split.
  - intros [d [Hin Heq]]. apply Ascii.eqb_eq in Heq. subst d. exact Hin.
  - intros Hin. exists c. split; [exact Hin | apply Ascii.eqb_refl].
Qed.

(** A boolean property checked on the 26 letters holds of every letter. *)
Lemma letters_forall (P : ascii -> bool) :
  forallb P letters = true -> forall c, isLetter c = true -> P c = true.
Proof.
  intros HP c Hc. rewrite forallb_forall in HP.
  apply HP, isLetter_In, Hc.
Qed.

Lemma indices_In (i : Z) : 0 <= i < 26 <-> In i indices.
Proof.
  unfold indices. rewrite in_map_iff. split.
  - intros Hi. exists (Z.to_nat i). split; [lia |].
    apply in_seq. lia.
  - intros [n [Hn Hin]]. apply in_seq in Hin. lia.
Qed.

(** A boolean property checked on the 26 indices holds of every index. *)
Lemma indices_forall (P : Z -> bool) :
  forallb P indices = true -> forall i, 0 <= i < 26 -> P i = true.
Proof.
  intros HP i Hi. rewrite forallb_forall in HP.
  apply HP, indices_In, Hi.
Qed.

Lemma strictEq_eq (v w : value) : strictEq v w = true <-> v = w.
Proof.
  destruct v as [c |], w as [d |]; simpl; split; try congruence; try reflexivity.
  - intros H. apply Ascii.eqb_eq in H. congruence.
  - intros H. injection H as ->. apply Ascii.eqb_refl.
Qed.

Lemma strictEq_refl (v : value) : strictEq v v = true.
Proof. apply strictEq_eq. reflexivity. Qed.

Lemma strictEq_Chr (c d : ascii) : strictEq (Chr c) (Chr d) = Ascii.eqb c d.
Proof. reflexivity. Qed.

(** ** Tables that are permutations of the alphabet *)

Lemma permTable_charAt (w : string) (i : Z) :
  permTable w = true -> 0 <= i < 26 ->
  exists c, charAt w i = Chr c /\ isLetter c = true /\ indexOf w (Chr c) = i.
Proof.
  intros Hw Hi. unfold permTable in Hw. apply andb_true_iff in Hw as [Hw _].
  pose proof (indices_forall _ Hw i Hi) as H. cbv beta in H.
  destruct (charAt w i) as [c |]; [| discriminate].
  apply andb_true_iff in H as [Hc Hidx]. apply Z.eqb_eq in Hidx.
  exists c. auto.
Qed.

Lemma permTable_indexOf (w : string) (c : ascii) :
  permTable w = true -> isLetter c = true ->
  0 <= indexOf w (Chr c) < 26 /\ charAt w (indexOf w (Chr c)) = Chr c.
Proof.
  intros Hw Hc. unfold permTable in Hw. apply andb_true_iff in Hw as [_ Hw].
  pose proof (letters_forall _ Hw c Hc) as H. cbv beta in H.
  apply andb_true_iff in H as [Hr He]. apply strictEq_eq in He.
  unfold inRange in Hr. split; [lia | exact He].
Qed.

Lemma permTable_alphabet : permTable alphabet = true.
Proof. vm_compute. reflexivity. Qed.

Lemma permTable_REFLECTOR : permTable REFLECTOR = true.
Proof. vm_compute. reflexivity. Qed.

Lemma permTable_catalog (r : Rotor) :
  catalogRotor r = true -> permTable (wiring r) = true.
Proof.
  unfold catalogRotor. rewrite existsb_exists.
  intros [s [Hin Hs]]. apply andb_true_iff in Hs as [Hw _].
  apply String.eqb_eq in Hw. rewrite Hw.
  simpl in Hin. destruct Hin as [<- | [<- | [<- | []]]]; vm_compute; reflexivity.
Qed.

(** ** A rotor is a bijection of the letters, [backward] its inverse *)

Section RotorBijection.

Variable r : Rotor.
Hypothesis Hperm : permTable (wiring r) = true.

Lemma forward_letter (c : ascii) :
  isLetter c = true ->
  exists d, forward r (Chr c) = Chr d /\ isLetter d = true
            /\ backward r (Chr d) = Chr c.
Proof.
  intros Hc.
  destruct (permTable_indexOf alphabet c permTable_alphabet Hc) as [Hi Hci].
  unfold forward, backward.
  set (i := indexOf alphabet (Chr c)) in *.
  replace (i + position r - ringSetting r)
    with (i + (position r - ringSetting r)) by lia.
  set (k := mod_ (i + (position r - ringSetting r)) 26).
  destruct (permTable_charAt (wiring r) k Hperm (mod_range _))
    as [d [Hd [Hl Hk]]].
  exists d. split; [exact Hd |]. split; [exact Hl |].
  rewrite Hk.
  replace (k - position r + ringSetting r)
    with (k - (position r - ringSetting r)) by lia.
  subst k. rewrite mod_cancel by exact Hi. exact Hci.
Qed.

Lemma backward_letter (d : ascii) :
  isLetter d = true ->
  exists c, backward r (Chr d) = Chr c /\ isLetter c = true
            /\ forward r (Chr c) = Chr d.
Proof.
  intros Hd.
  destruct (permTable_indexOf (wiring r) d Hperm Hd) as [Hj Hdj].
  unfold forward, backward.
  set (j := indexOf (wiring r) (Chr d)) in *.
  replace (j - position r + ringSetting r)
    with (j + (ringSetting r - position r)) by lia.
  set (m := mod_ (j + (ringSetting r - position r)) 26).
  destruct (permTable_charAt alphabet m permTable_alphabet (mod_range _))
    as [c [Hc [Hl Hm]]].
  exists c. split; [exact Hc |]. split; [exact Hl |].
  rewrite Hm.
  replace (m + position r - ringSetting r)
    with (m - (ringSetting r - position r)) by lia.
  subst m. rewrite mod_cancel by exact Hj. exact Hdj.
Qed.

End RotorBijection.

(** ** The plugboard *)

Lemma disjointPairs_cons (a b : ascii) (rest : list (ascii * ascii)) :
  disjointPairs ((a, b) :: rest) = true ->
  apart a b rest /\ disjointPairs rest = true.
Proof.
  simpl. intros H. apply andb_true_iff in H as [Hh Hr]. split; [| exact Hr].
  intros p Hp. rewrite forallb_forall in Hh. specialize (Hh p Hp).
  andb_hyps. neqb_hyps. auto.
Qed.

(** The result of a swap is the input or a member of some pair. *)
Lemma plugboardSwap_result (c : value) (pairs : list (ascii * ascii)) :
  plugboardSwap c pairs = c
  \/ exists p, In p pairs
               /\ (plugboardSwap c pairs = Chr (fst p)
                   \/ plugboardSwap c pairs = Chr (snd p)).
Proof.
  induction pairs as [| [a b] rest IH]; simpl; [left; reflexivity |].
  destruct (strictEq c (Chr a)).
  - right. exists (a, b). simpl. auto.
  - destruct (strictEq c (Chr b)).
    + right. exists (a, b). simpl. auto.
    + destruct IH as [IH | [p [Hp IH]]]; [left; exact IH |].
      right. exists p. auto.
Qed.

Lemma strictEq_Chr_false (c d : ascii) : c <> d -> strictEq (Chr c) (Chr d) = false.
Proof. intros H. simpl. apply Ascii.eqb_neq. exact H. Qed.

Section Plugboard.

Variable pairs : list (ascii * ascii).
Hypothesis Hdisjoint : disjointPairs pairs = true.

Lemma plugboardSwap_members (a b : ascii) :
  In (a, b) pairs ->
  plugboardSwap (Chr a) pairs = Chr b /\ plugboardSwap (Chr b) pairs = Chr a.
Proof.
  revert Hdisjoint. induction pairs as [| [a0 b0] rest IH]; [intros _ [] |].
  intros Hd [Heq | Hin]; apply disjointPairs_cons in Hd as [Hap Hd].
  - injection Heq as -> ->. simpl. rewrite Ascii.eqb_refl. split; [reflexivity |].
    destruct (Ascii.eqb b a) eqn:Hba.
    + apply Ascii.eqb_eq in Hba. congruence.
    + rewrite Ascii.eqb_refl. reflexivity.
  - destruct (Hap _ Hin) as [H1 [H2 [H3 H4]]]. simpl in H1, H2, H3, H4.
    cbn [plugboardSwap].
    rewrite !strictEq_Chr_false by congruence.
    apply IH; assumption.
Qed.

Lemma plugboardSwap_others (c : value) :
  (forall a b, In (a, b) pairs -> c <> Chr a /\ c <> Chr b) ->
  plugboardSwap c pairs = c.
Proof.
  clear Hdisjoint.
  induction pairs as [| [a0 b0] rest IH]; intros H; [reflexivity |].
  destruct (H a0 b0 (or_introl eq_refl)) as [Ha Hb].
  cbn [plugboardSwap].
  destruct (strictEq c (Chr a0)) eqn:E1; [apply strictEq_eq in E1; contradiction |].
  destruct (strictEq c (Chr b0)) eqn:E2; [apply strictEq_eq in E2; contradiction |].
  apply IH. intros a b Hin. apply H. right. exact Hin.
Qed.

Lemma plugboardSwap_involutive (c : value) :
  plugboardSwap (plugboardSwap c pairs) pairs = c.
Proof.
  revert Hdisjoint. induction pairs as [| [a b] rest IH]; [reflexivity |].
  intros Hd. apply disjointPairs_cons in Hd as [Hap Hd].
  cbn [plugboardSwap].
  destruct (strictEq c (Chr a)) eqn:E1.
  - apply strictEq_eq in E1. subst c. cbn [plugboardSwap]. rewrite !strictEq_Chr.
    destruct (Ascii.eqb b a) eqn:Hba.
    + apply Ascii.eqb_eq in Hba. congruence.
    + rewrite Ascii.eqb_refl. reflexivity.
  - destruct (strictEq c (Chr b)) eqn:E2.
    + apply strictEq_eq in E2. subst c. cbn [plugboardSwap].
      rewrite strictEq_refl. reflexivity.
    + assert (Hskip : strictEq (plugboardSwap c rest) (Chr a) = false
                      /\ strictEq (plugboardSwap c rest) (Chr b) = false).
      { destruct (plugboardSwap_result c rest) as [-> | [p [Hp Hres]]];
          [split; assumption |].
        destruct (Hap p Hp) as [H1 [H2 [H3 H4]]].
        destruct Hres as [-> | ->];
          rewrite !strictEq_Chr_false by congruence; split; reflexivity. }
      destruct Hskip as [-> ->]. apply IH. exact Hd.
Qed.

End Plugboard.

(** Pairs of letters send letters to letters. *)
Lemma plugboardSwap_letter (pairs : list (ascii * ascii)) (c : ascii) :
  letterPairs pairs = true -> isLetter c = true ->
  exists d, plugboardSwap (Chr c) pairs = Chr d /\ isLetter d = true.
Proof.
  intros Hl Hc. unfold letterPairs in Hl. rewrite forallb_forall in Hl.
  destruct (plugboardSwap_result (Chr c) pairs) as [-> | [p [Hp Hres]]].
  - exists c. auto.
  - specialize (Hl p Hp). apply andb_true_iff in Hl as [H1 H2].
    destruct Hres as [-> | ->]; [exists (fst p) | exists (snd p)]; split;
      solve [reflexivity | assumption].
Qed.

(** ** The reflector *)

Lemma reflect_letter (c : ascii) :
  isLetter c = true ->
  exists d, reflect (Chr c) = Chr d /\ isLetter d = true /\ d <> c
            /\ reflect (Chr d) = Chr c.
Proof.
  intros Hc.
  assert (Hall : forallb reflectorCheck letters = true) by (vm_compute; reflexivity).
  pose proof (letters_forall _ Hall c Hc) as H. unfold reflectorCheck in H.
  destruct (reflect (Chr c)) as [d |]; [| discriminate].
  apply andb_true_iff in H as [H H3]. apply andb_true_iff in H as [H1 H2].
  apply negb_true_iff, Ascii.eqb_neq in H2. apply strictEq_eq in H3.
  exists d. auto.
Qed.

(** ** The two passes through the rotor chain *)

Lemma forwardPass_letter (rs : list Rotor) (c : ascii) :
  permRotors rs -> isLetter c = true ->
  exists d, forwardPass rs (Chr c) = Chr d /\ isLetter d = true
            /\ backwardPass rs (Chr d) = Chr c.
Proof.
  intros Hrs Hc. induction Hrs as [| r rs Hr Hrs IH].
  - exists c. auto.
  - destruct IH as [d' [Hf [Hl Hb]]].
    destruct (forward_letter r Hr d' Hl) as [d [Hf' [Hl' Hb']]].
    exists d. unfold forwardPass, backwardPass in *. simpl.
    rewrite Hf, Hf', Hb'. auto.
Qed.

Lemma backwardPass_letter (rs : list Rotor) (d : ascii) :
  permRotors rs -> isLetter d = true ->
  exists c, backwardPass rs (Chr d) = Chr c /\ isLetter c = true
            /\ forwardPass rs (Chr c) = Chr d.
Proof.
  intros Hrs. revert d. induction Hrs as [| r rs Hr Hrs IH]; intros d Hd.
  - exists d. auto.
  - destruct (backward_letter r Hr d Hd) as [c1 [Hb1 [Hl1 Hf1]]].
    destruct (IH c1 Hl1) as [c [Hb [Hl Hf]]].
    exists c. unfold forwardPass, backwardPass in *. simpl.
    rewrite Hb1, Hb, Hf, Hf1. auto.
Qed.

(** ** The signal path *)

Lemma signal_letter (e : Enigma) (c : ascii) :
  soundMachine e -> isLetter c = true ->
  exists d, signal e (Chr c) = Chr d /\ isLetter d = true /\ d <> c
            /\ signal e (Chr d) = Chr c.
Proof.
  intros [Hrs Hp] Hc. unfold validPairs in Hp.
  apply andb_true_iff in Hp as [Hlp Hdp].
  pose proof (plugboardSwap_involutive _ Hdp) as Hinv.
  destruct (plugboardSwap_letter _ c Hlp Hc) as [x1 [H1 L1]].
  destruct (forwardPass_letter _ x1 Hrs L1) as [x2 [H2 [L2 B2]]].
  destruct (reflect_letter x2 L2) as [x3 [H3 [L3 [N3 R3]]]].
  destruct (backwardPass_letter _ x3 Hrs L3) as [x4 [H4 [L4 F4]]].
  destruct (plugboardSwap_letter _ x4 Hlp L4) as [x5 [H5 L5]].
  exists x5. unfold signal. rewrite H1, H2, H3, H4, H5.
  split; [reflexivity |]. split; [exact L5 |]. split.
  - intros ->. apply N3.
    assert (E : Chr x4 = Chr x1).
    { rewrite <- (Hinv (Chr x4)), H5. exact H1. }
    injection E as ->. rewrite H2 in F4. congruence.
  - rewrite <- H5, Hinv, F4, R3, B2, <- H1. apply Hinv.
Qed.

(** ** Stepping and the machine invariant *)

Lemma validRotor_step (r : Rotor) : validRotor r = true -> validRotor (step r) = true.
Proof.
  unfold validRotor. intros H.
  apply andb_true_iff in H as [H Hp]. apply andb_true_iff in H as [Hc Hr].
  unfold step, catalogRotor in *. cbn [wiring notch ringSetting position].
  rewrite Hc, Hr. pose proof (mod_range (position r + 1)).
  unfold inRange. apply andb_true_iff. split; lia.
Qed.

(** On three rotors [stepRotors] returns, with the rotors it names. *)
Lemma stepRotors_three (l m r : Rotor) (rest : list Rotor) (pairs : list (ascii * ascii)) :
  stepRotors (mkEnigma (l :: m :: r :: rest) pairs) =
  Normal (mkEnigma
            ((if atNotch m then step l else l)
             :: (if atNotch r then step (if atNotch m then step m else m)
                 else if atNotch m then step m else m)
             :: step r :: rest) pairs).
Proof.
  unfold stepRotors. cbn [rotors plugboardPairs nth_error].
  destruct (atNotch m), (atNotch r); reflexivity.
Qed.

Lemma validMachine_three (e : Enigma) :
  validMachine e = true ->
  exists l m r, e = mkEnigma [l; m; r] (plugboardPairs e)
                /\ validRotor l = true /\ validRotor m = true /\ validRotor r = true
                /\ validPairs (plugboardPairs e) = true.
Proof.
  destruct e as [rs pairs]. unfold validMachine. cbn [rotors plugboardPairs].
  intros H. apply andb_true_iff in H as [H Hp]. apply andb_true_iff in H as [Hn Hv].
  destruct rs as [| l [| m [| r [| x rest]]]]; try discriminate.
  cbn [forallb] in Hv.
  apply andb_true_iff in Hv as [Hl Hv]. apply andb_true_iff in Hv as [Hm Hv].
  apply andb_true_iff in Hv as [Hr _].
  exists l, m, r. auto.
Qed.

Lemma stepRotors_valid (e : Enigma) :
  validMachine e = true ->
  exists e', stepRotors e = Normal e' /\ validMachine e' = true.
Proof.
  intros He. destruct (validMachine_three e He) as [l [m [r [-> [Hl [Hm [Hr Hp]]]]]]].
  rewrite stepRotors_three. eexists. split; [reflexivity |].
  unfold validMachine. cbn [rotors plugboardPairs List.length forallb].
  cbn [plugboardPairs] in Hp. rewrite Hp.
  pose proof (validRotor_step l Hl). pose proof (validRotor_step m Hm).
  pose proof (validRotor_step r Hr).
  pose proof (validRotor_step (step m) (validRotor_step m Hm)).
  destruct (atNotch m), (atNotch r);
    repeat match goal with H : validRotor _ = true |- _ => rewrite H; clear H end;
    reflexivity.
Qed.

Lemma validMachine_sound (e : Enigma) : validMachine e = true -> soundMachine e.
Proof.
  unfold validMachine, soundMachine, permRotors. intros H.
  apply andb_true_iff in H as [H Hp]. apply andb_true_iff in H as [_ Hv].
  split; [| exact Hp]. apply Forall_forall. intros r Hr.
  rewrite forallb_forall in Hv. specialize (Hv r Hr). unfold validRotor in Hv.
  apply andb_true_iff in Hv as [Hv _]. apply andb_true_iff in Hv as [Hc _].
  apply permTable_catalog, Hc.
Qed.

(** ** One keystroke *)

Lemma encryptChar_other (e : Enigma) (c : ascii) :
  isLetter c = false -> encryptChar e c = Normal (e, Chr c).
Proof. intros H. unfold encryptChar. fold (isLetter c). rewrite H. reflexivity. Qed.

Lemma encryptChar_letter (e : Enigma) (c : ascii) :
  validMachine e = true -> isLetter c = true ->
  exists e' d, encryptChar e c = Normal (e', Chr d)
               /\ validMachine e' = true /\ isLetter d = true /\ d <> c
               /\ encryptChar e d = Normal (e', Chr c).
Proof.
  intros He Hc. destruct (stepRotors_valid e He) as [e' [Hs He']].
  destruct (signal_letter e' c (validMachine_sound e' He') Hc) as [d [Hd [Hl [Hn Hb]]]].
  exists e', d. unfold encryptChar. fold (isLetter c). fold (isLetter d).
  rewrite Hc, Hl, Hs. cbn [negb bind]. rewrite Hd, Hb. auto.
Qed.

(** ** Construction *)

Lemma inCatalog_cases (id : Z) : inCatalog id = true -> id = 0 \/ id = 1 \/ id = 2.
Proof.
  unfold inCatalog, arrayGet. destruct (id <? 0) eqn:E; [discriminate |].
  apply Z.ltb_ge in E. intros H.
  destruct (Z.to_nat id) as [| [| [| n]]] eqn:En; [lia | lia | lia |].
  destruct n; discriminate.
Qed.

Lemma newRotor_valid (rings poss : list Z) (id i : Z) :
  inCatalog id = true ->
  inRange (orDefault (arrayGet rings i) 0) = true ->
  inRange (orDefault (arrayGet poss i) 0) = true ->
  exists r, newRotor rings poss id i = Normal r /\ validRotor r = true.
Proof.
  intros Hid Hr Hp. unfold newRotor, validRotor.
  destruct (inCatalog_cases id Hid) as [-> | [-> | ->]]; cbn [arrayGet Z.ltb Z.compare];
    eexists; (split; [reflexivity |]);
    cbn [ringSetting position]; rewrite Hr, Hp; reflexivity.
Qed.

Lemma newEnigma_valid (cfg : Config) :
  validConfig cfg = true ->
  exists e, newEnigma cfg = Normal e /\ validMachine e = true.
Proof.
  destruct cfg as [ids poss rings pairs]. unfold validConfig, newEnigma.
  cbn [rotorIDs rotorPositions ringSettings plugPairs].
  intros H. andb_hyps.
  destruct ids as [| i0 [| i1 [| i2 [| ? ?]]]]; try discriminate.
  destruct poss as [| p0 [| p1 [| p2 [| ? ?]]]]; try discriminate.
  destruct rings as [| r0 [| r1 [| r2 [| ? ?]]]]; try discriminate.
  cbn [forallb] in *. andb_hyps.
  cbn [mapRotors]. change (0 + 1) with 1. change (1 + 1) with 2.
  destruct (newRotor_valid [r0; r1; r2] [p0; p1; p2] i0 0) as [x0 [-> V0]]; try assumption.
  destruct (newRotor_valid [r0; r1; r2] [p0; p1; p2] i1 1) as [x1 [-> V1]]; try assumption.
  destruct (newRotor_valid [r0; r1; r2] [p0; p1; p2] i2 2) as [x2 [-> V2]]; try assumption.
  eexists. split; [reflexivity |].
  unfold validMachine. cbn [rotors plugboardPairs List.length forallb Nat.eqb].
  rewrite V0, V1, V2. cbn [andb]. assumption.
Qed.

Lemma reachable_valid (cfg : Config) (e : Enigma) :
  validConfig cfg = true -> reachable cfg e -> validMachine e = true.
Proof.
  intros Hcfg Hr. induction Hr as [e Hnew | e c e' v Hr IH Hstep].
  - destruct (newEnigma_valid cfg Hcfg) as [e0 [H0 V0]]. congruence.
  - destruct (isLetter c) eqn:Hc.
    + destruct (encryptChar_letter e c IH Hc) as [e1 [d [H1 [V1 _]]]]. congruence.
    + rewrite (encryptChar_other e c Hc) in Hstep. congruence.
Qed.

(** ** Whole messages *)

Lemma join_chars (ds : list ascii) : join (map Chr ds) = string_of_list_ascii ds.
Proof. induction ds as [| d ds IH]; simpl; [reflexivity | rewrite IH; reflexivity]. Qed.

Lemma toUpperCase_chars (s : string) :
  list_ascii_of_string (toUpperCase s) = map toUpperCaseChar (list_ascii_of_string s).
Proof. induction s as [| c s IH]; simpl; [reflexivity | rewrite IH; reflexivity]. Qed.

Lemma toUpperCaseChar_letter (c : ascii) : isLetter c = true -> toUpperCaseChar c = c.
Proof.
  intros Hc. apply Ascii.eqb_eq.
  apply (letters_forall (fun c => Ascii.eqb (toUpperCaseChar c) c)); [| exact Hc].
  vm_compute. reflexivity.
Qed.

Lemma toUpperCase_letters (cs : list ascii) :
  forallb isLetter cs = true -> map toUpperCaseChar cs = cs.
Proof.
  induction cs as [| c cs IH]; [reflexivity |]. simpl. intros H.
  apply andb_true_iff in H as [Hc Hcs].
  rewrite (toUpperCaseChar_letter c Hc), (IH Hcs). reflexivity.
Qed.

Lemma mapEncrypt_valid (cs : list ascii) (e : Enigma) :
  validMachine e = true ->
  exists e' ds, mapEncrypt e cs = Normal (e', map Chr ds)
                /\ validMachine e' = true /\ Forall2 keyed cs ds.
Proof.
  revert e. induction cs as [| c cs IH]; intros e He.
  - exists e, []. simpl. auto.
  - destruct (isLetter c) eqn:Hc.
    + destruct (encryptChar_letter e c He Hc) as [e1 [d [H1 [V1 [Ld [Nd _]]]]]].
      destruct (IH e1 V1) as [e2 [ds [H2 [V2 F2]]]].
      exists e2, (d :: ds). cbn [mapEncrypt]. rewrite H1. cbn [bind]. rewrite H2.
      cbn [bind map]. repeat split; try assumption.
      constructor; [| exact F2]. unfold keyed. rewrite Hc. auto.
    + destruct (IH e He) as [e2 [ds [H2 [V2 F2]]]].
      exists e2, (c :: ds). cbn [mapEncrypt]. rewrite (encryptChar_other e c Hc).
      cbn [bind]. rewrite H2. cbn [bind map]. repeat split; try assumption.
      constructor; [| exact F2]. unfold keyed. rewrite Hc. reflexivity.
Qed.

Lemma mapEncrypt_involution (cs : list ascii) (e : Enigma) :
  validMachine e = true -> forallb isLetter cs = true ->
  exists e' ds, mapEncrypt e cs = Normal (e', map Chr ds)
                /\ forallb isLetter ds = true
                /\ mapEncrypt e ds = Normal (e', map Chr cs).
Proof.
  revert e. induction cs as [| c cs IH]; intros e He Hcs.
  - exists e, []. simpl. auto.
  - cbn [forallb] in Hcs. apply andb_true_iff in Hcs as [Hc Hcs].
    destruct (encryptChar_letter e c He Hc) as [e1 [d [H1 [V1 [Ld [_ B1]]]]]].
    destruct (IH e1 V1 Hcs) as [e2 [ds [H2 [Lds B2]]]].
    exists e2, (d :: ds). cbn [mapEncrypt forallb]. rewrite H1, B1. cbn [bind].
    rewrite H2, B2, Ld, Lds. cbn [bind map]. auto.
Qed.

Lemma process_letters (e : Enigma) (text : string) :
  lettersOnly text = true ->
  process e text =
  '(e', vs) <- mapEncrypt e (list_ascii_of_string text) ;; Normal (e', join vs).
Proof.
  intros H. unfold process.
  rewrite toUpperCase_chars, toUpperCase_letters by exact H. reflexivity.
Qed.

(** ** Texts, their characters and their positions *)

Lemma get_nth_error (s : string) (i : nat) :
  String.get i s = nth_error (list_ascii_of_string s) i.
Proof.
  revert i. induction s as [| c s IH]; intros [| i]; simpl; auto.
Qed.

Lemma length_chars (s : string) :
  String.length s = List.length (list_ascii_of_string s).
Proof. induction s as [| c s IH]; simpl; auto. Qed.

Lemma Forall2_nth_error {A B : Type} (R : A -> B -> Prop) (l : list A) (l' : list B) :
  Forall2 R l l' ->
  forall i a, nth_error l i = Some a -> exists b, nth_error l' i = Some b /\ R a b.
Proof.
  induction 1 as [| x y l l' Hxy _ IH]; intros [| i] a Ha; simpl in *;
    try discriminate.
  - injection Ha as ->. eauto.
  - eauto.
Qed.

Lemma toUpperCaseChar_cases (c : ascii) :
  (isLower c = true /\ isLetter (toUpperCaseChar c) = true)
  \/ (isLower c = false /\ toUpperCaseChar c = c).
Proof. destruct c as [[] [] [] [] [] [] [] []]; vm_compute; auto. Qed.

Lemma isLower_not_letter (c : ascii) : isLower c = true -> isLetter c = false.
Proof. destruct c as [[] [] [] [] [] [] [] []]; vm_compute; congruence. Qed.

Lemma process_valid (e : Enigma) (text : string) :
  validMachine e = true ->
  exists e' ds, process e text = Normal (e', string_of_list_ascii ds)
                /\ validMachine e' = true
                /\ Forall2 keyed (map toUpperCaseChar (list_ascii_of_string text)) ds.
Proof.
  intros He. unfold process. rewrite toUpperCase_chars.
  destruct (mapEncrypt_valid (map toUpperCaseChar (list_ascii_of_string text)) e He)
    as [e' [ds [H [V F]]]].
  exists e', ds. rewrite H. cbn [bind]. rewrite join_chars. auto.
Qed.

(** On a valid machine [process] returns a text of the same length in
    which the characters that are not letters kept their place. *)
Lemma process_positions (e : Enigma) (text : string) :
  validMachine e = true ->
  exists e' out,
    process e text = Normal (e', out)
    /\ validMachine e' = true
    /\ String.length out = String.length text
    /\ forall i c, String.get i text = Some c ->
                   isLetter c = false -> isLower c = false ->
                   String.get i out = Some c.
Proof.
  intros He.
  destruct (process_valid e text He) as [e' [ds [H [V F]]]].
  exists e', (string_of_list_ascii ds). split; [exact H |]. split; [exact V |]. split.
  - rewrite !length_chars, list_ascii_of_string_of_list_ascii.
    apply Forall2_length in F. rewrite length_map in F. symmetry. exact F.
  - intros i c Hi Hc Hlow.
    rewrite get_nth_error in *. rewrite list_ascii_of_string_of_list_ascii.
    apply (map_nth_error toUpperCaseChar) in Hi.
    destruct (Forall2_nth_error _ _ _ F i _ Hi) as [d [Hd Hk]].
    destruct (toUpperCaseChar_cases c) as [[Hl _] | [_ Hu]]; [congruence |].
    rewrite Hu in Hk. unfold keyed in Hk. rewrite Hc in Hk. congruence.
Qed.

(** ** What the constructor accepts *)

Lemma inCatalog_spec (id : Z) : inCatalog id = true <-> 0 <= id <= 2.
Proof.
  split.
  - intros H. destruct (inCatalog_cases id H) as [-> | [-> | ->]]; lia.
  - intros H. assert (E : id = 0 \/ id = 1 \/ id = 2) by lia.
    destruct E as [-> | [-> | ->]]; reflexivity.
Qed.

Lemma forallb_false {A : Type} (f : A -> bool) (l : list A) :
  forallb f l = false <-> exists x, In x l /\ f x = false.
Proof.
  induction l as [| a l IH]; simpl.
  - split; [discriminate | intros [x [[] _]]].
  - rewrite andb_false_iff, IH. split.
    + intros [H | [x [Hin Hx]]]; eauto.
    + intros [x [[<- | Hin] Hx]]; eauto.
Qed.

Lemma newRotor_catalog (rings poss : list Z) (id i : Z) :
  match arrayGet ROTORS id with
  | Some s => inCatalog id = true
              /\ newRotor rings poss id i
                 = Normal (mkRotor (spec_wiring s) (spec_notch s)
                             (orDefault (arrayGet rings i) 0)
                             (orDefault (arrayGet poss i) 0))
  | None => inCatalog id = false /\ newRotor rings poss id i = TypeError
  end.
Proof.
  unfold newRotor, inCatalog. destruct (arrayGet ROTORS id); auto.
Qed.

Lemma mapRotors_spec (rings poss ids : list Z) (i : Z) :
  (forallb inCatalog ids = false -> mapRotors rings poss ids i = TypeError)
  /\ (forallb inCatalog ids = true ->
      exists rs, mapRotors rings poss ids i = Normal rs
                 /\ List.length rs = List.length ids
                 /\ forall k id, nth_error ids k = Some id ->
                      exists s, arrayGet ROTORS id = Some s
                        /\ nth_error rs k
                           = Some (mkRotor (spec_wiring s) (spec_notch s)
                                     (orDefault (arrayGet rings (i + Z.of_nat k)) 0)
                                     (orDefault (arrayGet poss (i + Z.of_nat k)) 0))).
Proof.
  revert i. induction ids as [| id ids IH]; intros i.
  - split; [discriminate |]. intros _. exists []. simpl.
    repeat split. intros [| k] id H; discriminate.
  - cbn [forallb mapRotors]. pose proof (newRotor_catalog rings poss id i) as Hn.
    destruct (IH (i + 1)) as [IHf IHt].
    destruct (arrayGet ROTORS id) as [s |] eqn:Hs; destruct Hn as [Hc Hn];
      rewrite Hc, Hn; cbn [andb bind].
    + split.
      * intros Hf. rewrite (IHf Hf). reflexivity.
      * intros Ht. destruct (IHt Ht) as [rs [Hrs [Hlen Hk]]].
        exists (mkRotor (spec_wiring s) (spec_notch s)
                  (orDefault (arrayGet rings i) 0)
                  (orDefault (arrayGet poss i) 0) :: rs).
        rewrite Hrs. cbn [bind List.length]. split; [reflexivity |].
        split; [congruence |].
        intros [| k] id' Hid; cbn [nth_error] in *.
        -- injection Hid as <-. exists s. rewrite Z.add_0_r. auto.
        -- destruct (Hk k id' Hid) as [s' [Hs' Hr']]. exists s'.
           split; [exact Hs' |]. rewrite Hr'.
           replace (i + 1 + Z.of_nat k) with (i + Z.of_nat (S k)) by lia.
           reflexivity.
    + split; [reflexivity | discriminate].
Qed.

(** ** Texts beyond ASCII *)

Lemma upperLatin_ascii (c : ascii) :
  ascii7 c = true ->
  upperLatin c = Some (String (toUpperCaseChar c) EmptyString).
Proof.
  destruct c as [[] [] [] [] [] [] [] []]; intros H;
    solve [reflexivity | discriminate H].
Qed.

Lemma toUpperCaseLatin_ascii (text : string) :
  asciiText text = true -> toUpperCaseLatin text = Some (toUpperCase text).
Proof.
  unfold asciiText. induction text as [| c text IH]; [reflexivity |].
  cbn [list_ascii_of_string forallb toUpperCaseLatin toUpperCase]. intros H.
  apply andb_true_iff in H as [Hc Ht].
  rewrite (upperLatin_ascii c Hc), (IH Ht). reflexivity.
Qed.

(** On 7-bit ASCII the two agree. *)
Lemma processLatin_ascii (e : Enigma) (text : string) :
  asciiText text = true -> processLatin e text = Some (process e text).
Proof.
  intros H. unfold processLatin, process.
  rewrite (toUpperCaseLatin_ascii text H). reflexivity.
Qed.

(** * The properties of the specification *)

(** C1. Encryption is an involution: for a valid configuration and a
    message of uppercase letters only, a fresh machine turns the message
    into a ciphertext, and a second fresh machine built from the same
    configuration turns that ciphertext back into the message. *)
Theorem encryption_involution (cfg : Config) (M : string) :
  validConfig cfg = true -> lettersOnly M = true ->
  exists ct, run cfg M = Normal ct /\ run cfg ct = Normal M.
Proof.
  intros Hcfg HM. destruct (newEnigma_valid cfg Hcfg) as [e [Hnew He]].
  destruct (mapEncrypt_involution (list_ascii_of_string M) e He HM)
    as [e' [ds [Henc [Lds Hdec]]]].
  assert (Lct : lettersOnly (string_of_list_ascii ds) = true).
  { unfold lettersOnly. rewrite list_ascii_of_string_of_list_ascii. exact Lds. }
  exists (string_of_list_ascii ds). unfold run. rewrite Hnew. cbn [bind].
  rewrite (process_letters e M HM), (process_letters e _ Lct).
  rewrite list_ascii_of_string_of_list_ascii, Henc, Hdec. cbn [bind].
  rewrite !join_chars, string_of_list_ascii_of_string. auto.
Qed.

Lemma encryption_involution_witness :
  let cfg := mkConfig [0; 1; 2] [5; 10; 15] [1; 2; 3] [("A", "B"); ("C", "D")]%char in
  validConfig cfg = true /\ lettersOnly "HELLO" = true
  /\ exists ct, run cfg "HELLO" = Normal ct /\ run cfg ct = Normal "HELLO".
Proof.
  split; [reflexivity |]. split; [reflexivity |].
  apply encryption_involution; reflexivity.
Defined.

(** C2, as the specification states it, fails: a configuration with a
    position and a ring setting outside [0,25], a letter in two
    plugboard pairs, a pair with a digit and four rotors is constructed
    without error. *)
Lemma construction_accepts_invalid :
  let cfg := mkConfig [0; 1; 2; 0] [26; 0; 0] [0; -1; 0]
               [("A", "B"); ("A", "1")]%char in
  validConfig cfg = false
  /\ newEnigma cfg
     = Normal (mkEnigma [ mkRotor "EKMFLGDQVZNTOWYHXUSPAIBRCJ" "Q" 0 26
                        ; mkRotor "AJDKSIRUXBLHWTMCQGZNPYFVOE" "E" (-1) 0
                        ; mkRotor "BDFHJLCPRTXVZNYEIWGAKMUSQO" "V" 0 0
                        ; mkRotor "EKMFLGDQVZNTOWYHXUSPAIBRCJ" "Q" 0 0 ]
                 [("A", "B"); ("A", "1")]%char).
Proof. split; vm_compute; reflexivity. Qed.

(** C2, as the script has it. The constructor checks nothing: it throws
    (a [TypeError], leaving no machine) exactly when some rotor
    identifier is outside the catalog [0..2]; otherwise it returns a
    machine with one rotor per identifier, carrying the catalog wiring
    and notch and the ring setting and position given at the same index
    (0 where none is given), and the plugboard pairs as given, whatever
    their values and however many rotors there are. A valid
    configuration is constructed without error. *)
Theorem construction_checks_catalog_only (cfg : Config) :
  (newEnigma cfg = TypeError
   <-> exists id, In id (rotorIDs cfg) /\ ~ (0 <= id <= 2))
  /\ ((forall id, In id (rotorIDs cfg) -> 0 <= id <= 2) ->
      exists rs, newEnigma cfg = Normal (mkEnigma rs (plugPairs cfg))
                 /\ List.length rs = List.length (rotorIDs cfg)
                 /\ forall k id, nth_error (rotorIDs cfg) k = Some id ->
                      exists r, nth_error rs k = Some r /\ builtRotor cfg k id r)
  /\ (validConfig cfg = true ->
      exists e, newEnigma cfg = Normal e /\ validMachine e = true).
Proof.
  destruct (mapRotors_spec (ringSettings cfg) (rotorPositions cfg) (rotorIDs cfg) 0)
    as [Hf Ht].
  assert (Hall : (forall id, In id (rotorIDs cfg) -> 0 <= id <= 2)
                 -> forallb inCatalog (rotorIDs cfg) = true).
  { intros H. apply forallb_forall. intros id Hin. apply inCatalog_spec, H, Hin. }
  split; [| split; [| apply newEnigma_valid]].
  - unfold newEnigma. split.
    + intros H. destruct (forallb inCatalog (rotorIDs cfg)) eqn:E.
      * destruct (Ht eq_refl) as [rs [Hrs _]]. rewrite Hrs in H. discriminate.
      * apply forallb_false in E as [id [Hin Hid]]. exists id. split; [exact Hin |].
        rewrite <- inCatalog_spec. congruence.
    + intros [id [Hin Hid]]. rewrite Hf; [reflexivity |].
      apply forallb_false. exists id. split; [exact Hin |].
      rewrite <- inCatalog_spec in Hid. destruct (inCatalog id); congruence.
  - intros H. destruct (Ht (Hall H)) as [rs [Hrs [Hlen Hk]]].
    exists rs. unfold newEnigma. rewrite Hrs. cbn [bind].
    split; [reflexivity |]. split; [exact Hlen |].
    intros k id Hid. destruct (Hk k id Hid) as [s [Hs Hr]].
    eexists. split; [exact Hr |]. exists s. auto.
Qed.

Lemma construction_checks_catalog_only_witness :
  let cfg := mkConfig [0; 1; 2] [5; 10; 15] [1; 2; 3] [("A", "B")]%char in
  validConfig cfg = true
  /\ exists e, newEnigma cfg = Normal e /\ validMachine e = true.
Proof.
  intros cfg. split; [reflexivity |].
  exact (proj2 (proj2 (construction_checks_catalog_only cfg)) eq_refl).
Defined.

(** C3. The stepping rule: on a letter, one [encryptChar] moves the
    right rotor by one, the middle rotor by one for its own notch plus
    one for the right rotor's notch, and the left rotor by one exactly
    when the middle rotor was at its notch; both notch tests are those
    of the rotors before the keystroke, and all of it is modulo 26. *)
Theorem stepping_rule (l m r : Rotor) (rest : list Rotor)
    (pairs : list (ascii * ascii)) (c : ascii) :
  isLetter c = true ->
  inRange (position l) = true -> inRange (position m) = true ->
  inRange (position r) = true ->
  exists l' m' r' v,
    encryptChar (mkEnigma (l :: m :: r :: rest) pairs) c
    = Normal (mkEnigma (l' :: m' :: r' :: rest) pairs, v)
    /\ position r' = (position r + 1) mod 26
    /\ position m' = (position m + Z.b2z (atNotch m) + Z.b2z (atNotch r)) mod 26
    /\ position l' = (position l + Z.b2z (atNotch m)) mod 26
    /\ (wiring l', notch l', ringSetting l') = (wiring l, notch l, ringSetting l)
    /\ (wiring m', notch m', ringSetting m') = (wiring m, notch m, ringSetting m)
    /\ (wiring r', notch r', ringSetting r') = (wiring r, notch r, ringSetting r).
Proof.
  intros Hc Hl Hm Hr. unfold inRange in Hl, Hm, Hr.
  unfold encryptChar. fold (isLetter c). rewrite Hc, stepRotors_three.
  cbn [negb bind].
  do 4 eexists. split; [reflexivity |].
  destruct (atNotch m), (atNotch r); cbn [step position wiring notch ringSetting Z.b2z];
    rewrite ?mod_spec, ?Zplus_mod_idemp_l, ?Z.add_0_r;
    repeat split; try reflexivity;
    try (symmetry; apply Z.mod_small; lia);
    f_equal; lia.
Qed.

Lemma stepping_rule_witness :
  let l := mkRotor "EKMFLGDQVZNTOWYHXUSPAIBRCJ" "Q" 0 0 in
  let m := mkRotor "AJDKSIRUXBLHWTMCQGZNPYFVOE" "E" 0 4 in
  let r := mkRotor "BDFHJLCPRTXVZNYEIWGAKMUSQO" "V" 0 21 in
  atNotch m = true /\ atNotch r = true
  /\ exists l' m' r' v,
       encryptChar (mkEnigma [l; m; r] []) "A" = Normal (mkEnigma [l'; m'; r'] [], v)
       /\ position r' = 22 /\ position m' = 6 /\ position l' = 1.
Proof.
  split; [reflexivity |]. split; [reflexivity |].
  destruct (stepping_rule
              (mkRotor "EKMFLGDQVZNTOWYHXUSPAIBRCJ" "Q" 0 0)
              (mkRotor "AJDKSIRUXBLHWTMCQGZNPYFVOE" "E" 0 4)
              (mkRotor "BDFHJLCPRTXVZNYEIWGAKMUSQO" "V" 0 21)
              [] [] "A" eq_refl eq_refl eq_refl eq_refl)
    as [l' [m' [r' [v [H [Hr [Hm [Hl _]]]]]]]].
  exists l', m', r', v. auto.
Defined.

(** C4. Round trip through a rotor: for a rotor of the catalog with
    position and ring setting in [0,25] and an uppercase letter [x],
    [forward] reads the wiring at [(index x + position - ringSetting) mod 26],
    [backward] reads the alphabet at
    [(indexInWiring c - position + ringSetting) mod 26],
    and [backward (forward x)] is [x]. *)
Theorem rotor_round_trip (r : Rotor) (x : ascii) :
  validRotor r = true -> isLetter x = true ->
  forward r (Chr x)
  = charAt (wiring r) ((indexOf alphabet (Chr x) + position r - ringSetting r) mod 26)
  /\ (forall c, backward r c
                = charAt alphabet ((indexOf (wiring r) c - position r + ringSetting r) mod 26))
  /\ backward r (forward r (Chr x)) = Chr x.
Proof.
  intros Hr Hx. unfold validRotor in Hr.
  apply andb_true_iff in Hr as [Hr _]. apply andb_true_iff in Hr as [Hc _].
  split; [unfold forward; rewrite mod_spec; reflexivity |].
  split; [intros c; unfold backward; rewrite mod_spec; reflexivity |].
  destruct (forward_letter r (permTable_catalog r Hc) x Hx) as [d [Hf [_ Hb]]].
  rewrite Hf. exact Hb.
Qed.

Lemma rotor_round_trip_witness :
  let r := mkRotor "AJDKSIRUXBLHWTMCQGZNPYFVOE" "E" 7 19 in
  validRotor r = true /\ isLetter "K" = true
  /\ backward r (forward r (Chr "K")) = Chr "K".
Proof.
  split; [reflexivity |]. split; [reflexivity |].
  exact (proj2 (proj2 (rotor_round_trip
                         (mkRotor "AJDKSIRUXBLHWTMCQGZNPYFVOE" "E" 7 19) "K"
                         eq_refl eq_refl))).
Defined.

(** C5. The plugboard is a partial involution: when each letter appears
    in at most one pair, swapping twice gives back any symbol; a member
    of a pair is swapped for its partner, and a symbol that is in no
    pair is returned unchanged. *)
Theorem plugboard_partial_involution (pairs : list (ascii * ascii)) (c : value) :
  disjointPairs pairs = true ->
  plugboardSwap (plugboardSwap c pairs) pairs = c
  /\ (forall a b, In (a, b) pairs ->
        plugboardSwap (Chr a) pairs = Chr b /\ plugboardSwap (Chr b) pairs = Chr a)
  /\ ((forall a b, In (a, b) pairs -> c <> Chr a /\ c <> Chr b) ->
        plugboardSwap c pairs = c).
Proof.
  intros Hd. split; [apply plugboardSwap_involutive, Hd |].
  split; [intros a b; apply plugboardSwap_members, Hd |].
  apply plugboardSwap_others.
Qed.

Lemma plugboard_partial_involution_witness :
  let pairs := [("A", "B"); ("C", "D")]%char in
  disjointPairs pairs = true
  /\ plugboardSwap (plugboardSwap (Chr "D") pairs) pairs = Chr "D".
Proof.
  split; [reflexivity |].
  exact (proj1 (plugboard_partial_involution
                  [("A", "B"); ("C", "D")]%char (Chr "D") eq_refl)).
Defined.

(** C6. The reflector is an involution without fixed points on the 26
    letters: [REFLECTOR[index x]] is a letter other than [x], and the
    reflector sends it back to [x]. *)
Theorem reflector_involution (x : ascii) :
  In x letters ->
  exists y, charAt REFLECTOR (indexOf alphabet (Chr x)) = Chr y
            /\ In y letters /\ y <> x
            /\ charAt REFLECTOR (indexOf alphabet (Chr y)) = Chr x.
Proof.
  intros Hx. apply isLetter_In in Hx.
  destruct (reflect_letter x Hx) as [y [H1 [H2 [H3 H4]]]].
  exists y. apply isLetter_In in H2. auto.
Qed.

Lemma reflector_involution_witness :
  In "A"%char letters
  /\ exists y, charAt REFLECTOR (indexOf alphabet (Chr "A")) = Chr y
               /\ In y letters /\ y <> "A"%char
               /\ charAt REFLECTOR (indexOf alphabet (Chr y)) = Chr "A".
Proof.
  assert (H : In "A"%char letters) by (apply isLetter_In; reflexivity).
  split; [exact H |]. apply reflector_involution. exact H.
Defined.

(** C7, as the specification states it, fails for [process] on a text
    beyond ASCII: [toUpperCase] turns the sharp s (U+00DF) into "SS",
    both letters are enciphered, and the digit that stood at index 1 of
    the text stands at index 2 of the output, which is one character
    longer. *)
Lemma sharp_s_shifts_the_digit :
  let e := mkEnigma [ mkRotor "EKMFLGDQVZNTOWYHXUSPAIBRCJ" "Q" 0 0
                    ; mkRotor "AJDKSIRUXBLHWTMCQGZNPYFVOE" "E" 0 0
                    ; mkRotor "BDFHJLCPRTXVZNYEIWGAKMUSQO" "V" 0 0 ] [] in
  let e' := mkEnigma [ mkRotor "EKMFLGDQVZNTOWYHXUSPAIBRCJ" "Q" 0 0
                     ; mkRotor "AJDKSIRUXBLHWTMCQGZNPYFVOE" "E" 0 0
                     ; mkRotor "BDFHJLCPRTXVZNYEIWGAKMUSQO" "V" 0 2 ] [] in
  let text := String "223" (String "1" EmptyString) in
  validMachine e = true
  /\ String.get 1 text = Some "1"%char
  /\ isLetter "1" = false /\ isLower "1" = false
  /\ processLatin e text = Some (Normal (e', "EY1"))
  /\ String.get 1 "EY1" = Some "Y"%char
  /\ String.get 1 "EY1" <> String.get 1 text
  /\ String.length "EY1" = S (String.length text).
Proof.
  intros e e' text. repeat (split; [reflexivity |]).
  split; [discriminate | reflexivity].
Qed.

(** C7, as the script has it. Characters outside the uppercase alphabet
    are transparent: [encryptChar] returns such a character unchanged
    and leaves the machine as it was; hence the machine after ["A1B"]
    is the machine after ["AB"]; and on a valid machine the output of
    [process] on a text of 7-bit ASCII characters has the length of the
    text, with every character that is not a letter unchanged at the
    position it had in the text. *)
Theorem non_letters_transparent :
  (forall e c, isLetter c = false -> encryptChar e c = Normal (e, Chr c))
  /\ (forall e, stateAfter (process e "A1B") = stateAfter (process e "AB"))
  /\ (forall e text,
        validMachine e = true -> asciiText text = true ->
        exists e' out,
          process e text = Normal (e', out)
          /\ String.length out = String.length text
          /\ forall i c, String.get i text = Some c ->
                         isLetter c = false -> isLower c = false ->
                         String.get i out = Some c).
Proof.
  split; [exact encryptChar_other |]. split.
  - intros e. unfold process, stateAfter.
    change (list_ascii_of_string (toUpperCase "A1B")) with ["A"; "1"; "B"]%char.
    change (list_ascii_of_string (toUpperCase "AB")) with ["A"; "B"]%char.
    cbn [mapEncrypt].
    destruct (encryptChar e "A") as [[e1 v1] |]; [| reflexivity]. cbn [bind].
    rewrite (encryptChar_other e1 "1" eq_refl). cbn [bind].
    destruct (encryptChar e1 "B") as [[e2 v2] |]; reflexivity.
  - intros e text He _.
    destruct (process_positions e text He) as [e' [out [H [_ [Hlen Hpos]]]]].
    exists e', out. auto.
Qed.

Lemma non_letters_transparent_witness :
  let e := mkEnigma [ mkRotor "EKMFLGDQVZNTOWYHXUSPAIBRCJ" "Q" 0 0
                    ; mkRotor "AJDKSIRUXBLHWTMCQGZNPYFVOE" "E" 0 0
                    ; mkRotor "BDFHJLCPRTXVZNYEIWGAKMUSQO" "V" 0 0 ] [] in
  validMachine e = true /\ asciiText "Hi, 42!" = true
  /\ isLetter "1" = false
  /\ encryptChar e "1" = Normal (e, Chr "1")
  /\ exists e' out, process e "Hi, 42!" = Normal (e', out)
                    /\ String.length out = String.length "Hi, 42!".
Proof.
  intros e.
  split; [reflexivity |]. split; [reflexivity |]. split; [reflexivity |].
  split; [exact (proj1 non_letters_transparent e "1"%char eq_refl) |].
  destruct (proj2 (proj2 non_letters_transparent) e "Hi, 42!" eq_refl eq_refl)
    as [e' [out [H [Hlen _]]]].
  exists e', out. auto.
Defined.

(** C8. Processing is total on a machine built from a valid
    configuration: in every state it can reach, [encryptChar] returns a
    defined character for every input character and [process] returns a
    text of the length of its input; [mod] always lands in [0,25], and
    each lookup of the signal path (plugboard, each rotor in either
    direction, reflector) turns a letter into a letter. *)
Theorem processing_total (cfg : Config) (e : Enigma) :
  validConfig cfg = true -> reachable cfg e ->
  (forall c, exists e' d, encryptChar e c = Normal (e', Chr d) /\ reachable cfg e')
  /\ (forall cs, exists e' ds, mapEncrypt e cs = Normal (e', map Chr ds)
                               /\ List.length ds = List.length cs)
  /\ (forall text, asciiText text = true ->
        exists e' out, process e text = Normal (e', out)
                       /\ String.length out = String.length text)
  /\ (forall n, 0 <= mod_ n 26 < 26)
  /\ (forall x, isLetter x = true ->
        0 <= indexOf alphabet (Chr x) < 26
        /\ (exists y, plugboardSwap (Chr x) (plugboardPairs e) = Chr y
                      /\ isLetter y = true)
        /\ (exists y, reflect (Chr x) = Chr y /\ isLetter y = true)
        /\ (forall r, In r (rotors e) ->
              0 <= indexOf (wiring r) (Chr x) < 26
              /\ (exists y, forward r (Chr x) = Chr y /\ isLetter y = true)
              /\ (exists y, backward r (Chr x) = Chr y /\ isLetter y = true))).
Proof.
  intros Hcfg Hr. pose proof (reachable_valid cfg e Hcfg Hr) as He.
  split; [| split; [| split; [| split; [exact mod_range |]]]].
  - intros c. destruct (isLetter c) eqn:Hc.
    + destruct (encryptChar_letter e c He Hc) as [e' [d [H _]]].
      exists e', d. split; [exact H |]. exact (reach_step cfg e c e' _ Hr H).
    + exists e, c. split; [apply encryptChar_other, Hc | exact Hr].
  - intros cs. destruct (mapEncrypt_valid cs e He) as [e' [ds [H [_ F]]]].
    exists e', ds. split; [exact H |]. symmetry. exact (Forall2_length F).
  - intros text Ht.
    destruct (process_positions e text He) as [e' [out [H [_ [Hlen _]]]]].
    exists e', out. auto.
  - intros x Hx. destruct (validMachine_sound e He) as [Hrs Hp].
    unfold validPairs in Hp. apply andb_true_iff in Hp as [Hlp _].
    split; [apply (permTable_indexOf alphabet x permTable_alphabet Hx) |].
    split; [apply plugboardSwap_letter; assumption |].
    split; [destruct (reflect_letter x Hx) as [y [H1 [H2 _]]]; eauto |].
    intros r Hin. unfold permRotors in Hrs. rewrite Forall_forall in Hrs.
    specialize (Hrs r Hin).
    split; [apply (permTable_indexOf (wiring r) x Hrs Hx) |]. split.
    + destruct (forward_letter r Hrs x Hx) as [y [H1 [H2 _]]]. eauto.
    + destruct (backward_letter r Hrs x Hx) as [y [H1 [H2 _]]]. eauto.
Qed.

Lemma processing_total_witness :
  let cfg := mkConfig [0; 1; 2] [0; 0; 0] [0; 0; 0] [] in
  validConfig cfg = true
  /\ exists e, newEnigma cfg = Normal e
               /\ exists e' out, process e "Attack at dawn!" = Normal (e', out)
                                 /\ String.length out = 15%nat.
Proof.
  intros cfg. split; [reflexivity |].
  eexists. split; [vm_compute; reflexivity |].
  refine (proj1 (proj2 (proj2 (processing_total cfg _ eq_refl (reach_new _ _ _))))
            "Attack at dawn!" eq_refl).
  vm_compute. reflexivity.
Defined.

(** C9. [encryptChar] is case-sensitive: a lowercase letter comes back
    unchanged and steps no rotor; [process] uppercases the text first,
    so that a lowercase letter reaches [encryptChar] as its uppercase
    letter and, on a valid machine, is enciphered. *)
Theorem encryptChar_case_sensitive (e : Enigma) (c : ascii) :
  isLower c = true ->
  encryptChar e c = Normal (e, Chr c)
  /\ isLetter (toUpperCaseChar c) = true
  /\ (forall text,
        process e text
        = ('(e', vs) <- mapEncrypt e (map toUpperCaseChar (list_ascii_of_string text)) ;;
           Normal (e', join vs)))
  /\ (validMachine e = true ->
      exists e' d, process e (String c EmptyString) = Normal (e', String d EmptyString)
                   /\ encryptChar e (toUpperCaseChar c) = Normal (e', Chr d)
                   /\ isLetter d = true /\ d <> toUpperCaseChar c).
Proof.
  intros Hc.
  assert (Hup : isLetter (toUpperCaseChar c) = true).
  { destruct (toUpperCaseChar_cases c) as [[_ H] | [H _]]; [exact H | congruence]. }
  split; [apply encryptChar_other, isLower_not_letter, Hc |].
  split; [exact Hup |].
  split; [intros text; unfold process; rewrite toUpperCase_chars; reflexivity |].
  intros He.
  destruct (encryptChar_letter e _ He Hup) as [e' [d [H [_ [Hl [Hn _]]]]]].
  exists e', d. unfold process. cbn [toUpperCase list_ascii_of_string mapEncrypt].
  rewrite H. cbn [bind join]. auto.
Qed.

Lemma encryptChar_case_sensitive_witness :
  let e := mkEnigma [ mkRotor "EKMFLGDQVZNTOWYHXUSPAIBRCJ" "Q" 0 0
                    ; mkRotor "AJDKSIRUXBLHWTMCQGZNPYFVOE" "E" 0 0
                    ; mkRotor "BDFHJLCPRTXVZNYEIWGAKMUSQO" "V" 0 0 ] [] in
  isLower "a" = true /\ encryptChar e "a" = Normal (e, Chr "a").
Proof.
  split; [reflexivity |].
  exact (proj1 (encryptChar_case_sensitive _ "a" eq_refl)).
Defined.

(** C10. No letter encrypts to itself: in every state a machine built
    from a valid configuration can reach, [encryptChar] returns, for an
    uppercase letter, a letter other than the one typed. *)
Theorem no_letter_encrypts_to_itself (cfg : Config) (e : Enigma) (c : ascii) :
  validConfig cfg = true -> reachable cfg e -> isLetter c = true ->
  exists e' d, encryptChar e c = Normal (e', Chr d) /\ isLetter d = true /\ d <> c.
Proof.
  intros Hcfg Hr Hc.
  destruct (encryptChar_letter e c (reachable_valid cfg e Hcfg Hr) Hc)
    as [e' [d [H [_ [Hl [Hn _]]]]]].
  exists e', d. auto.
Qed.

Lemma no_letter_encrypts_to_itself_witness :
  let cfg := mkConfig [2; 0; 1] [3; 4; 25] [0; 7; 0] [("A", "Z")]%char in
  validConfig cfg = true /\ isLetter "A" = true
  /\ exists e, newEnigma cfg = Normal e
               /\ exists e' d, encryptChar e "A" = Normal (e', Chr d)
                               /\ isLetter d = true /\ d <> "A"%char.
Proof.
  split; [reflexivity |]. split; [reflexivity |].
  eexists. split; [vm_compute; reflexivity |].
  apply (no_letter_encrypts_to_itself
           (mkConfig [2; 0; 1] [3; 4; 25] [0; 7; 0] [("A", "Z")]%char));
    [reflexivity | apply reach_new; vm_compute; reflexivity | reflexivity].
Defined.

(** * Further properties of the script *)

(** ** [mod], [step] and [atNotch] *)

(** X1. For a modulus [m] with [0 < m <= 2^52] and an integer [n] with
    [|n| <= 2^53] (where the sum [(n % m) + m] of the script is exact),
    [mod] is the mathematical remainder, also of a negative number: it
    lies in [0, m) and differs from [n] by a multiple of [m]. *)
Theorem mod_floor (n m : Z) :
  0 < m <= 2 ^ 52 -> - 2 ^ 53 <= n <= 2 ^ 53 ->
  mod_ n m = n mod m /\ 0 <= mod_ n m < m.
Proof.
  intros [Hm _] _.
  assert (E : mod_ n m = n mod m).
  { unfold mod_.
    pose proof (Z.rem_bound_abs n m ltac:(lia)) as Hb.
    pose proof (Z.quot_rem' n m) as Hq.
    rewrite Z.rem_mod_nonneg by lia.
    replace (Z.rem n m + m) with (n + (1 - n ÷ m) * m) by lia.
    apply Z.mod_add. lia. }
  rewrite E. split; [reflexivity |]. apply Z.mod_pos_bound. exact Hm.
Qed.

Lemma mod_floor_witness :
  0 < 7 <= 2 ^ 52 /\ - 2 ^ 53 <= -15 <= 2 ^ 53 /\ mod_ (-15) 7 = 6.
Proof.
  assert (Hm : 0 < 7 <= 2 ^ 52) by (split; [reflexivity | discriminate]).
  assert (Hn : - 2 ^ 53 <= -15 <= 2 ^ 53) by (split; discriminate).
  split; [exact Hm |]. split; [exact Hn |].
  destruct (mod_floor (-15) 7 Hm Hn) as [H _]. rewrite H. reflexivity.
Defined.

Lemma stepTimes_fixedPart (n : nat) (r : Rotor) :
  fixedPart (stepTimes n r) = fixedPart r.
Proof.
  induction n as [| n IH]; [reflexivity |].
  cbn [stepTimes]. rewrite <- IH. reflexivity.
Qed.

Lemma stepTimes_position (n : nat) (r : Rotor) :
  inRange (position r) = true ->
  position (stepTimes n r) = (position r + Z.of_nat n) mod 26.
Proof.
  intros Hr. unfold inRange in Hr. induction n as [| n IH].
  - cbn [stepTimes]. change (Z.of_nat 0) with 0.
    rewrite Z.add_0_r, Z.mod_small; lia.
  - cbn [stepTimes step position].
    rewrite mod_spec, IH, Zplus_mod_idemp_l. f_equal. lia.
Qed.

Lemma rotor_eq (r r' : Rotor) :
  fixedPart r = fixedPart r' -> position r = position r' -> r = r'.
Proof.
  destruct r, r'. unfold fixedPart. cbn. intros H ->. congruence.
Qed.

(** X2. A step leaves the position in [0,25] and takes 25 to 0; from a
    position in [0,25], 26 steps bring the rotor back to where it was,
    and no smaller positive number of steps does. *)
Theorem step_period (r : Rotor) :
  inRange (position (step r)) = true
  /\ fixedPart (step r) = fixedPart r
  /\ (position r = 25 -> position (step r) = 0)
  /\ (inRange (position r) = true ->
      stepTimes 26 r = r
      /\ forall n, (0 < n < 26)%nat -> stepTimes n r <> r).
Proof.
  split.
  { cbn [step position]. pose proof (mod_range (position r + 1)).
    unfold inRange. lia. }
  split; [reflexivity |]. split.
  { intros H. cbn [step position]. rewrite H. reflexivity. }
  intros Hr. split.
  - apply rotor_eq; [apply stepTimes_fixedPart |].
    rewrite (stepTimes_position 26 r Hr). unfold inRange in Hr.
    change (Z.of_nat 26) with (1 * 26). rewrite Z.mod_add, Z.mod_small; lia.
  - intros n Hn E. apply (f_equal position) in E.
    rewrite (stepTimes_position n r Hr) in E. unfold inRange in Hr.
    destruct (Z.lt_ge_cases (position r + Z.of_nat n) 26) as [Hlt | Hge].
    + rewrite Z.mod_small in E; lia.
    + replace (position r + Z.of_nat n)
        with (position r + Z.of_nat n - 26 + 1 * 26) in E by lia.
      rewrite Z.mod_add, Z.mod_small in E; lia.
Qed.

Lemma step_period_witness :
  let r := mkRotor "EKMFLGDQVZNTOWYHXUSPAIBRCJ" "Q" 3 17 in
  inRange (position r) = true /\ stepTimes 26 r = r.
Proof.
  intros r. split; [reflexivity |].
  exact (proj1 (proj2 (proj2 (proj2 (step_period r))) eq_refl)).
Defined.

Lemma get_Some_lt (s : string) (n : nat) (c : ascii) :
  String.get n s = Some c -> (n < String.length s)%nat.
Proof.
  revert n. induction s as [| a s IH]; intros [| n] H; simpl in *;
    try discriminate; try lia.
  apply IH in H. lia.
Qed.

Lemma charAt_defined (s : string) (i : Z) (c : ascii) :
  charAt s i = Chr c -> 0 <= i < Z.of_nat (String.length s).
Proof.
  unfold charAt. destruct (i <? 0) eqn:E; [discriminate |].
  apply Z.ltb_ge in E.
  destruct (String.get (Z.to_nat i) s) as [d |] eqn:G; [| discriminate].
  intros _. apply get_Some_lt in G. lia.
Qed.

(** X3. A rotor is at its notch at one position only, the index of its
    notch letter in the alphabet; at a position outside [0,25] it is
    never at its notch. *)
Theorem atNotch_position (r : Rotor) :
  (atNotch r = true -> 0 <= position r < 26)
  /\ (isLetter (notch r) = true ->
      (atNotch r = true <-> position r = indexOf alphabet (Chr (notch r)))).
Proof.
  assert (Hrange : atNotch r = true -> 0 <= position r < 26).
  { unfold atNotch. intros H. apply strictEq_eq in H.
    apply charAt_defined in H. exact H. }
  split; [exact Hrange |]. intros Hn. split.
  - intros H. pose proof (Hrange H) as Hp.
    unfold atNotch in H. apply strictEq_eq in H.
    destruct (permTable_charAt alphabet (position r) permTable_alphabet Hp)
      as [c [Hc [_ Hi]]].
    rewrite Hc in H. injection H as ->. symmetry. exact Hi.
  - intros H. unfold atNotch. rewrite H. apply strictEq_eq.
    apply (permTable_indexOf alphabet (notch r) permTable_alphabet Hn).
Qed.

Lemma atNotch_position_witness :
  let r := mkRotor "BDFHJLCPRTXVZNYEIWGAKMUSQO" "V" 0 21 in
  isLetter (notch r) = true /\ atNotch r = true
  /\ position r = indexOf alphabet (Chr (notch r)).
Proof.
  intros r. split; [reflexivity |]. split; [reflexivity |].
  exact (proj1 (proj2 (atNotch_position r) eq_refl) eq_refl).
Defined.

(** ** [stepRotors] *)

Lemma stepRotors_returns (e e' : Enigma) :
  stepRotors e = Normal e' ->
  (3 <= List.length (rotors e))%nat
  /\ List.length (rotors e') = List.length (rotors e)
  /\ plugboardPairs e' = plugboardPairs e
  /\ map fixedPart (rotors e') = map fixedPart (rotors e)
  /\ skipn 3 (rotors e') = skipn 3 (rotors e).
Proof.
  destruct e as [rs pairs]. cbn [rotors plugboardPairs].
  destruct rs as [| l [| m [| r rest]]]; try discriminate.
  rewrite stepRotors_three. intros H. injection H as <-.
  cbn [rotors plugboardPairs List.length map skipn].
  split; [lia |]. repeat split.
  destruct (atNotch m), (atNotch r); reflexivity.
Qed.

Lemma stepRotors_throws (e : Enigma) :
  stepRotors e = TypeError <-> (List.length (rotors e) < 3)%nat.
Proof.
  destruct e as [rs pairs]. cbn [rotors].
  destruct rs as [| l [| m [| r rest]]];
    try (split; [intros _; cbn; lia | reflexivity]).
  rewrite stepRotors_three. split; [discriminate | cbn [List.length]; lia].
Qed.

(** X4. [stepRotors] throws exactly on a machine with fewer than three
    rotors; when it returns, the machine has the same number of rotors,
    the same plugboard, the same wiring, notch and ring setting in every
    rotor, and the rotors after the third are untouched. *)
Theorem stepRotors_frame (e : Enigma) :
  (stepRotors e = TypeError <-> (List.length (rotors e) < 3)%nat)
  /\ (forall e', stepRotors e = Normal e' ->
        List.length (rotors e') = List.length (rotors e)
        /\ plugboardPairs e' = plugboardPairs e
        /\ map fixedPart (rotors e') = map fixedPart (rotors e)
        /\ skipn 3 (rotors e') = skipn 3 (rotors e)).
Proof.
  split; [apply stepRotors_throws |].
  intros e' H. apply stepRotors_returns in H. tauto.
Qed.

Lemma stepRotors_frame_witness :
  let e := mkEnigma [ mkRotor "EKMFLGDQVZNTOWYHXUSPAIBRCJ" "Q" 0 0
                    ; mkRotor "AJDKSIRUXBLHWTMCQGZNPYFVOE" "E" 0 0 ] [] in
  (List.length (rotors e) < 3)%nat /\ stepRotors e = TypeError.
Proof.
  intros e. assert (H : (List.length (rotors e) < 3)%nat) by (cbn; lia).
  split; [exact H |]. exact (proj2 (proj1 (stepRotors_frame e)) H).
Defined.

(** ** The signal path at any setting *)

Lemma permRotors_fixedPart (rs rs' : list Rotor) :
  map fixedPart rs' = map fixedPart rs -> permRotors rs -> permRotors rs'.
Proof.
  revert rs'. induction rs as [| r rs IH]; intros [| r' rs'] H Hp;
    simpl in H; try discriminate H; [constructor |].
  inversion Hp as [| ? ? Hr1 Hrs1]; subst.
  assert (Hw : wiring r' = wiring r).
  { unfold fixedPart in H. congruence. }
  assert (Hrs : map fixedPart rs' = map fixedPart rs) by congruence.
  constructor; [rewrite Hw; exact Hr1 | apply IH; assumption].
Qed.

Lemma catalogRotors_perm (rs : list Rotor) :
  forallb catalogRotor rs = true -> permRotors rs.
Proof.
  intros H. apply Forall_forall. intros r Hr.
  rewrite forallb_forall in H. apply permTable_catalog, H, Hr.
Qed.

Lemma stepRotors_usable (e : Enigma) :
  usableMachine e ->
  exists e', stepRotors e = Normal e' /\ usableMachine e'.
Proof.
  intros [Hlen [Hperm Hpairs]].
  destruct (stepRotors e) as [e' |] eqn:Hs.
  - exists e'. split; [reflexivity |].
    destruct (stepRotors_returns e e' Hs) as [_ [Hl [Hp [Hf _]]]].
    repeat split.
    + rewrite Hl. exact Hlen.
    + apply (permRotors_fixedPart (rotors e)); assumption.
    + rewrite Hp. exact Hpairs.
  - apply stepRotors_throws in Hs. lia.
Qed.

Lemma encryptChar_usable (e : Enigma) (c : ascii) :
  usableMachine e -> isLetter c = true ->
  exists e' d, encryptChar e c = Normal (e', Chr d)
               /\ usableMachine e' /\ isLetter d = true /\ d <> c
               /\ encryptChar e d = Normal (e', Chr c).
Proof.
  intros He Hc. destruct (stepRotors_usable e He) as [e' [Hs He']].
  destruct (signal_letter e' c (proj2 He') Hc) as [d [Hd [Hl [Hn Hb]]]].
  exists e', d. unfold encryptChar. fold (isLetter c). fold (isLetter d).
  rewrite Hc, Hl, Hs. cbn [negb bind]. rewrite Hd, Hb. auto.
Qed.

(** On a usable machine a sequence of characters and what it is mapped
    to are mapped onto each other, from the same state to the same
    state. *)
Lemma mapEncrypt_usable (cs : list ascii) (e : Enigma) :
  usableMachine e ->
  exists e' ds, mapEncrypt e cs = Normal (e', map Chr ds)
                /\ usableMachine e'
                /\ Forall2 keyed cs ds
                /\ mapEncrypt e ds = Normal (e', map Chr cs).
Proof.
  revert e. induction cs as [| c cs IH]; intros e He.
  - exists e, []. simpl. auto.
  - destruct (isLetter c) eqn:Hc.
    + destruct (encryptChar_usable e c He Hc) as [e1 [d [H1 [U1 [Ld [Nd B1]]]]]].
      destruct (IH e1 U1) as [e2 [ds [H2 [U2 [F2 B2]]]]].
      exists e2, (d :: ds). cbn [mapEncrypt]. rewrite H1, B1. cbn [bind].
      rewrite H2, B2. cbn [bind map].
      split; [reflexivity |]. split; [exact U2 |]. split; [| reflexivity].
      constructor; [| exact F2]. unfold keyed. rewrite Hc. auto.
    + destruct (IH e He) as [e2 [ds [H2 [U2 [F2 B2]]]]].
      exists e2, (c :: ds). cbn [mapEncrypt]. rewrite (encryptChar_other e c Hc).
      cbn [bind]. rewrite H2, B2. cbn [bind map].
      split; [reflexivity |]. split; [exact U2 |]. split; [| reflexivity].
      constructor; [| exact F2]. unfold keyed. rewrite Hc. reflexivity.
Qed.

Lemma catalog_spec_perm (id : Z) (s : RotorSpec) :
  arrayGet ROTORS id = Some s -> permTable (spec_wiring s) = true.
Proof.
  intros H. assert (Hc : inCatalog id = true) by (unfold inCatalog; rewrite H; reflexivity).
  destruct (inCatalog_cases id Hc) as [-> | [-> | ->]];
    cbn in H; injection H as <-; vm_compute; reflexivity.
Qed.

Lemma mapRotors_perm (rings poss ids : list Z) (i : Z) :
  forallb inCatalog ids = true ->
  exists rs, mapRotors rings poss ids i = Normal rs
             /\ List.length rs = List.length ids /\ permRotors rs.
Proof.
  revert i. induction ids as [| id ids IH]; intros i H.
  - exists []. repeat split. constructor.
  - cbn [forallb] in H. apply andb_true_iff in H as [Hid Hids].
    destruct (IH (i + 1) Hids) as [rs [Hrs [Hlen Hperm]]].
    pose proof (newRotor_catalog rings poss id i) as Hn.
    destruct (arrayGet ROTORS id) as [s |] eqn:Hs; [| destruct Hn; congruence].
    destruct Hn as [_ Hn]. eexists. cbn [mapRotors]. rewrite Hn, Hrs. cbn [bind].
    split; [reflexivity |]. split; [cbn [List.length]; congruence |].
    constructor; [| exact Hperm]. cbn [wiring]. exact (catalog_spec_perm id s Hs).
Qed.

Lemma newEnigma_usable (cfg : Config) :
  usableConfig cfg = true ->
  exists e, newEnigma cfg = Normal e /\ usableMachine e.
Proof.
  unfold usableConfig. intros H. andb_hyps.
  destruct (mapRotors_perm (ringSettings cfg) (rotorPositions cfg) (rotorIDs cfg) 0)
    as [rs [Hrs [Hlen Hperm]]]; [assumption |].
  exists (mkEnigma rs (plugPairs cfg)). unfold newEnigma. rewrite Hrs.
  split; [reflexivity |]. unfold usableMachine, soundMachine.
  cbn [rotors plugboardPairs]. rewrite Hlen.
  match goal with H : (3 <=? _)%nat = true |- _ => apply Nat.leb_le in H end.
  auto.
Qed.

Lemma toUpperCaseChar_idem (c : ascii) :
  toUpperCaseChar (toUpperCaseChar c) = toUpperCaseChar c.
Proof. destruct c as [[] [] [] [] [] [] [] []]; reflexivity. Qed.

Lemma keyed_upper (cs ds : list ascii) :
  Forall2 keyed cs ds ->
  map toUpperCaseChar cs = cs -> map toUpperCaseChar ds = ds.
Proof.
  induction 1 as [| c d cs ds Hk _ IH]; [reflexivity |].
  cbn [map]. intros H. injection H as Hc Hcs. rewrite (IH Hcs). f_equal.
  unfold keyed in Hk. destruct (isLetter c).
  - apply toUpperCaseChar_letter, Hk.
  - subst d. exact Hc.
Qed.

(** X5. Deciphering any 7-bit ASCII text: with three or more catalog
    rotors, disjoint pairs of letters and positions and ring settings
    that are any integers of magnitude at most 2^51 (in or out of
    [0..25], in any number), running the output of a fresh machine
    through a second fresh machine of the same configuration gives the
    uppercased text back, non-letters included; the output has the
    length of the text. *)
Theorem decryption_of_any_text (cfg : Config) (text : string) :
  usableConfig cfg = true -> exactSettings cfg = true ->
  asciiText text = true ->
  exists ct, run cfg text = Normal ct
             /\ String.length ct = String.length text
             /\ run cfg ct = Normal (toUpperCase text).
Proof.
  intros Hcfg _ _. destruct (newEnigma_usable cfg Hcfg) as [e [Hnew He]].
  destruct (mapEncrypt_usable (map toUpperCaseChar (list_ascii_of_string text)) e He)
    as [e' [ds [Henc [_ [F Hdec]]]]].
  exists (string_of_list_ascii ds). unfold run, process. rewrite Hnew. cbn [bind].
  rewrite !toUpperCase_chars, list_ascii_of_string_of_list_ascii.
  rewrite (keyed_upper _ _ F) by (rewrite map_map; apply map_ext, toUpperCaseChar_idem).
  rewrite Henc, Hdec. cbn [bind]. rewrite !join_chars.
  split; [reflexivity |]. split.
  - rewrite !length_chars, list_ascii_of_string_of_list_ascii.
    apply Forall2_length in F. rewrite length_map in F. symmetry. exact F.
  - rewrite <- toUpperCase_chars, string_of_list_ascii_of_string. reflexivity.
Qed.

Lemma decryption_of_any_text_witness :
  let cfg := mkConfig [2; 2; 0; 1] [30; -4] [100] [("Q", "W")]%char in
  usableConfig cfg = true /\ exactSettings cfg = true
  /\ asciiText "Meet me at 9, ok?" = true
  /\ exists ct, run cfg "Meet me at 9, ok?" = Normal ct
                /\ String.length ct = String.length "Meet me at 9, ok?"
                /\ run cfg ct = Normal "MEET ME AT 9, OK?".
Proof.
  intros cfg. split; [reflexivity |]. split; [reflexivity |].
  split; [reflexivity |].
  exact (decryption_of_any_text cfg "Meet me at 9, ok?" eq_refl eq_refl eq_refl).
Defined.

(** ** No [undefined], whatever the plugboard *)

Lemma forward_defined (r : Rotor) (v : value) :
  permTable (wiring r) = true ->
  exists d, forward r v = Chr d /\ isLetter d = true.
Proof.
  intros Hp. unfold forward.
  destruct (permTable_charAt (wiring r) _ Hp
              (mod_range (indexOf alphabet v + position r - ringSetting r)))
    as [d [Hd [Hl _]]].
  exists d. auto.
Qed.

Lemma plugboardSwap_Chr (c : ascii) (pairs : list (ascii * ascii)) :
  exists d, plugboardSwap (Chr c) pairs = Chr d.
Proof.
  destruct (plugboardSwap_result (Chr c) pairs) as [-> | [p [_ [-> | ->]]]]; eauto.
Qed.

Lemma forwardPass_defined (rs : list Rotor) (v : value) :
  rs <> [] -> permRotors rs ->
  exists d, forwardPass rs v = Chr d /\ isLetter d = true.
Proof.
  intros Hne Hp. destruct rs as [| r rs]; [contradiction |].
  inversion Hp as [| ? ? Hr _]; subst.
  unfold forwardPass. cbn [fold_right]. apply forward_defined, Hr.
Qed.

Lemma signal_defined (e : Enigma) (c : ascii) :
  rotors e <> [] -> permRotors (rotors e) ->
  exists d, signal e (Chr c) = Chr d.
Proof.
  intros Hne Hp. unfold signal.
  destruct (plugboardSwap_Chr c (plugboardPairs e)) as [x1 ->].
  destruct (forwardPass_defined _ (Chr x1) Hne Hp) as [x2 [-> L2]].
  destruct (reflect_letter x2 L2) as [x3 [-> [L3 _]]].
  destruct (backwardPass_letter _ x3 Hp L3) as [x4 [-> _]].
  apply plugboardSwap_Chr.
Qed.

Lemma encryptChar_defined (e : Enigma) (c : ascii) :
  (3 <= List.length (rotors e))%nat -> permRotors (rotors e) ->
  exists e' d, encryptChar e c = Normal (e', Chr d)
               /\ (3 <= List.length (rotors e'))%nat /\ permRotors (rotors e').
Proof.
  intros Hlen Hp. destruct (isLetter c) eqn:Hc.
  - unfold encryptChar. fold (isLetter c). rewrite Hc. cbn [negb].
    destruct (stepRotors e) as [e1 |] eqn:Hs;
      [| apply stepRotors_throws in Hs; lia].
    destruct (stepRotors_returns e e1 Hs) as [_ [Hl [_ [Hf _]]]].
    assert (Hp1 : permRotors (rotors e1))
      by (apply (permRotors_fixedPart (rotors e)); assumption).
    assert (Hne : rotors e1 <> []).
    { intros E. rewrite E in Hl. cbn in Hl. lia. }
    destruct (signal_defined e1 c Hne Hp1) as [d Hd].
    exists e1, d. cbn [bind]. rewrite Hd, Hl. auto.
  - exists e, c. rewrite (encryptChar_other e c Hc). auto.
Qed.

Lemma mapEncrypt_defined (cs : list ascii) (e : Enigma) :
  (3 <= List.length (rotors e))%nat -> permRotors (rotors e) ->
  exists e' ds, mapEncrypt e cs = Normal (e', map Chr ds)
                /\ List.length ds = List.length cs.
Proof.
  revert e. induction cs as [| c cs IH]; intros e Hlen Hp.
  - exists e, []. auto.
  - destruct (encryptChar_defined e c Hlen Hp) as [e1 [d [H1 [Hl1 Hp1]]]].
    destruct (IH e1 Hl1 Hp1) as [e2 [ds [H2 Hlen2]]].
    exists e2, (d :: ds). cbn [mapEncrypt]. rewrite H1. cbn [bind]. rewrite H2.
    cbn [bind map List.length]. auto.
Qed.

(** X6. With three or more catalog rotors whose positions and ring
    settings are integers of magnitude at most 2^51 (in or out of
    [0..25]) nothing is ever [undefined] and nothing throws, whatever
    the plugboard (pairs of any symbols, overlapping or not):
    [encryptChar] returns a character for every character, and
    [process] returns, for a text of 7-bit ASCII characters, a text of
    the length of its input. *)
Theorem never_undefined (e : Enigma) :
  (3 <= List.length (rotors e))%nat -> forallb catalogRotor (rotors e) = true ->
  exactMachine e = true ->
  (forall c, exists e' d, encryptChar e c = Normal (e', Chr d))
  /\ (forall text, asciiText text = true ->
        exists e' out, process e text = Normal (e', out)
                       /\ String.length out = String.length text).
Proof.
  intros Hlen Hcat _. pose proof (catalogRotors_perm _ Hcat) as Hp. split.
  - intros c. destruct (encryptChar_defined e c Hlen Hp) as [e' [d [H _]]]. eauto.
  - intros text _. unfold process. rewrite toUpperCase_chars.
    destruct (mapEncrypt_defined (map toUpperCaseChar (list_ascii_of_string text))
                e Hlen Hp) as [e' [ds [H Hl]]].
    exists e', (string_of_list_ascii ds). rewrite H. cbn [bind]. rewrite join_chars.
    split; [reflexivity |].
    rewrite !length_chars, list_ascii_of_string_of_list_ascii, Hl, length_map.
    reflexivity.
Qed.

Lemma never_undefined_witness :
  let e := mkEnigma [ mkRotor "EKMFLGDQVZNTOWYHXUSPAIBRCJ" "Q" (-3) 40
                    ; mkRotor "AJDKSIRUXBLHWTMCQGZNPYFVOE" "E" 77 0
                    ; mkRotor "BDFHJLCPRTXVZNYEIWGAKMUSQO" "V" 0 (-1) ]
                    [("A", "1"); ("A", "B"); ("?", "B")]%char in
  (3 <= List.length (rotors e))%nat /\ forallb catalogRotor (rotors e) = true
  /\ exactMachine e = true
  /\ exists e' d, encryptChar e "A" = Normal (e', Chr d).
Proof.
  intros e. assert (H : (3 <= List.length (rotors e))%nat) by (cbn; lia).
  split; [exact H |]. split; [reflexivity |]. split; [reflexivity |].
  exact (proj1 (never_undefined e H eq_refl eq_refl) "A"%char).
Defined.

(** ** The state after a text *)

Lemma mapEncrypt_state (cs : list ascii) (e : Enigma) :
  stateAfter (mapEncrypt e cs) = stepRotorsTimes (countLetters cs) e.
Proof.
  revert e. induction cs as [| c cs IH]; intros e; [reflexivity |].
  unfold countLetters in *. cbn [mapEncrypt filter].
  unfold encryptChar. fold (isLetter c). destruct (isLetter c); cbn [negb bind].
  - cbn [List.length stepRotorsTimes]. destruct (stepRotors e) as [e1 |]; [| reflexivity].
    cbn [bind]. rewrite <- IH. unfold stateAfter.
    destruct (mapEncrypt e1 cs) as [[e2 vs] |]; reflexivity.
  - rewrite <- IH. unfold stateAfter.
    destruct (mapEncrypt e cs) as [[e2 vs] |]; reflexivity.
Qed.

(** X7. The machine a text leaves behind depends only on how many
    letters the text has: it is the machine after that many calls of
    [stepRotors], whichever the letters, the other characters and the
    plugboard are (and the call throws exactly when those steps do). *)
Theorem state_counts_letters (e : Enigma) (text : string) :
  stateAfter (process e text)
  = stepRotorsTimes (countLetters (list_ascii_of_string (toUpperCase text))) e.
Proof.
  rewrite <- mapEncrypt_state. unfold process, stateAfter.
  destruct (mapEncrypt e (list_ascii_of_string (toUpperCase text)))
    as [[e' vs] |]; reflexivity.
Qed.

(** ** Texts without letters, machines without rotors *)

Lemma mapEncrypt_plain (cs : list ascii) (e : Enigma) :
  forallb (fun c => negb (isLetter c)) cs = true ->
  mapEncrypt e cs = Normal (e, map Chr cs).
Proof.
  induction cs as [| c cs IH]; [reflexivity |]. cbn [forallb]. intros H.
  apply andb_true_iff in H as [Hc Hcs]. apply negb_true_iff in Hc.
  cbn [mapEncrypt]. rewrite (encryptChar_other e c Hc). cbn [bind].
  rewrite (IH Hcs). reflexivity.
Qed.

Lemma plainText_upper (cs : list ascii) :
  forallb (fun c => negb (isLetter c || isLower c)) cs = true ->
  map toUpperCaseChar cs = cs /\ forallb (fun c => negb (isLetter c)) cs = true.
Proof.
  induction cs as [| c cs IH]; [auto |]. cbn [forallb map]. intros H.
  apply andb_true_iff in H as [Hc Hcs]. destruct (IH Hcs) as [-> ->].
  apply negb_true_iff, orb_false_iff in Hc as [Hl Hlow].
  rewrite Hl. split; [| reflexivity].
  destruct (toUpperCaseChar_cases c) as [[E _] | [_ ->]]; [congruence | reflexivity].
Qed.

(** X8. A text of 7-bit ASCII characters without letters (the empty
    text among them) comes back unchanged and leaves the machine as it
    was, on any machine, even one that has no rotors. *)
Theorem process_plain_text (e : Enigma) (text : string) :
  asciiText text = true -> plainText text = true ->
  process e text = Normal (e, text).
Proof.
  intros _ H. destruct (plainText_upper _ H) as [Hu Hn].
  unfold process. rewrite toUpperCase_chars, Hu, (mapEncrypt_plain _ e Hn).
  cbn [bind]. rewrite join_chars, string_of_list_ascii_of_string. reflexivity.
Qed.

Lemma process_plain_text_witness :
  asciiText "12:30, 4/5 (?)" = true /\ plainText "12:30, 4/5 (?)" = true
  /\ process (mkEnigma [] []) "12:30, 4/5 (?)" = Normal (mkEnigma [] [], "12:30, 4/5 (?)").
Proof.
  split; [reflexivity |]. split; [reflexivity |].
  exact (process_plain_text (mkEnigma [] []) "12:30, 4/5 (?)" eq_refl eq_refl).
Defined.

Lemma mapEncrypt_short (cs : list ascii) (e : Enigma) :
  (List.length (rotors e) < 3)%nat -> existsb isLetter cs = true ->
  mapEncrypt e cs = TypeError.
Proof.
  intros Hlen. induction cs as [| c cs IH]; [discriminate |].
  cbn [existsb mapEncrypt]. destruct (isLetter c) eqn:Hc.
  - intros _. unfold encryptChar. fold (isLetter c). rewrite Hc. cbn [negb].
    rewrite (proj2 (stepRotors_throws e) Hlen). reflexivity.
  - cbn [orb]. intros H. rewrite (encryptChar_other e c Hc). cbn [bind].
    rewrite (IH H). reflexivity.
Qed.

Lemma plainText_false (cs : list ascii) :
  forallb (fun c => negb (isLetter c || isLower c)) cs = false ->
  existsb isLetter (map toUpperCaseChar cs) = true.
Proof.
  induction cs as [| c cs IH]; [discriminate |]. cbn [forallb map existsb].
  intros H. apply andb_false_iff in H as [H | H].
  - apply negb_false_iff in H.
    destruct (toUpperCaseChar_cases c) as [[_ ->] | [Hlow Hu]]; [reflexivity |].
    rewrite Hu. rewrite Hlow, orb_false_r in H. rewrite H. reflexivity.
  - rewrite (IH H). apply orb_true_r.
Qed.

(** X9. On a machine with fewer than three rotors [process] throws as
    soon as the text holds a letter of either case. *)
Theorem process_short_machine (e : Enigma) (text : string) :
  (List.length (rotors e) < 3)%nat ->
  asciiText text = true -> plainText text = false ->
  process e text = TypeError.
Proof.
  intros Hlen _ H. unfold process.
  rewrite toUpperCase_chars, (mapEncrypt_short _ e Hlen (plainText_false _ H)).
  reflexivity.
Qed.

Lemma process_short_machine_witness :
  let e := mkEnigma [ mkRotor "EKMFLGDQVZNTOWYHXUSPAIBRCJ" "Q" 0 0
                    ; mkRotor "AJDKSIRUXBLHWTMCQGZNPYFVOE" "E" 0 0 ] [] in
  (List.length (rotors e) < 3)%nat /\ asciiText "42 x" = true
  /\ plainText "42 x" = false /\ process e "42 x" = TypeError.
Proof.
  intros e. assert (H : (List.length (rotors e) < 3)%nat) by (cbn; lia).
  split; [exact H |]. split; [reflexivity |]. split; [reflexivity |].
  exact (process_short_machine e "42 x" H eq_refl eq_refl).
Defined.

(** ** The plugboard as a set of cables *)

Lemma plugged_or_not (c : value) (pairs : list (ascii * ascii)) :
  plugged c pairs
  \/ (forall a b, In (a, b) pairs -> c <> Chr a /\ c <> Chr b).
Proof.
  induction pairs as [| [a0 b0] rest IH].
  - right. intros a b [].
  - destruct (strictEq c (Chr a0)) eqn:Ea.
    { left. exists a0, b0. apply strictEq_eq in Ea. split; [left; reflexivity | auto]. }
    destruct (strictEq c (Chr b0)) eqn:Eb.
    { left. exists a0, b0. apply strictEq_eq in Eb. split; [left; reflexivity | auto]. }
    destruct IH as [[a [b [Hin Hc]]] | IH].
    + left. exists a, b. split; [right; exact Hin | exact Hc].
    + right. intros a b [E | Hin]; [| apply IH, Hin].
      injection E as <- <-. split; intros E.
      * rewrite E, strictEq_refl in Ea. discriminate.
      * rewrite E, strictEq_refl in Eb. discriminate.
Qed.

(** X10. For disjoint pairs the order of the pairs and the order of the
    two letters in a pair do not matter: two lists with the same cables
    swap every symbol alike. *)
Theorem plugboard_cables (pairs pairs' : list (ascii * ascii)) (c : value) :
  disjointPairs pairs = true -> disjointPairs pairs' = true ->
  sameCables pairs pairs' ->
  plugboardSwap c pairs = plugboardSwap c pairs'.
Proof.
  intros Hd Hd' Hsame.
  destruct (plugged_or_not c pairs) as [[a [b [Hin Hc]]] | Hnot].
  - destruct (plugboardSwap_members pairs Hd a b Hin) as [Hab Hba].
    destruct (proj1 (Hsame a b) Hin) as [Hin' | Hin'].
    + destruct (plugboardSwap_members pairs' Hd' a b Hin') as [Hab' Hba'].
      destruct Hc as [-> | ->]; congruence.
    + destruct (plugboardSwap_members pairs' Hd' b a Hin') as [Hba' Hab'].
      destruct Hc as [-> | ->]; congruence.
  - rewrite (plugboardSwap_others pairs c Hnot).
    symmetry. apply plugboardSwap_others. intros a b Hin'.
    destruct (proj2 (Hsame a b) Hin') as [Hin | Hin].
    + apply Hnot, Hin.
    + destruct (Hnot b a Hin). auto.
Qed.

Lemma plugboard_cables_witness :
  let pairs := [("A", "B"); ("C", "D")]%char in
  let pairs' := [("D", "C"); ("A", "B")]%char in
  disjointPairs pairs = true /\ disjointPairs pairs' = true
  /\ plugboardSwap (Chr "C") pairs = plugboardSwap (Chr "C") pairs'.
Proof.
  intros pairs pairs'. split; [reflexivity |]. split; [reflexivity |].
  apply (plugboard_cables pairs pairs' (Chr "C") eq_refl eq_refl).
  intros a b. split; intros H; cbn in H;
    repeat match goal with
           | H : _ \/ _ |- _ => destruct H as [H | H]
           | H : (_, _) = (_, _) |- _ => injection H as <- <-
           | H : False |- _ => destruct H
           end; cbn; tauto.
Defined.

(** ** What a session never changes *)

Lemma encryptChar_frame (e e' : Enigma) (c : ascii) (v : value) :
  encryptChar e c = Normal (e', v) ->
  List.length (rotors e') = List.length (rotors e)
  /\ plugboardPairs e' = plugboardPairs e
  /\ map fixedPart (rotors e') = map fixedPart (rotors e).
Proof.
  unfold encryptChar. destruct (negb (includes alphabet (Chr c))).
  - intros H. injection H as <- _. auto.
  - destruct (stepRotors e) as [e1 |] eqn:Hs; [| discriminate].
    cbn [bind]. intros H. injection H as <- _.
    destruct (stepRotors_returns e e1 Hs) as [_ [H1 [H2 [H3 _]]]]. auto.
Qed.

(** X11. Nothing a session does changes the settings: in every state
    reachable from the fresh machine of any configuration, the number
    of rotors, the plugboard pairs and each rotor's wiring, notch and
    ring setting are those of the fresh machine; only positions move. *)
Theorem settings_are_kept (cfg : Config) (e0 e : Enigma) :
  newEnigma cfg = Normal e0 -> reachable cfg e ->
  List.length (rotors e) = List.length (rotorIDs cfg)
  /\ plugboardPairs e = plugPairs cfg
  /\ map fixedPart (rotors e) = map fixedPart (rotors e0).
Proof.
  intros H0 Hr. induction Hr as [e Hnew | e c e' v Hr IH Hstep].
  - assert (E : e = e0) by congruence. subst e.
    unfold newEnigma in H0.
    destruct (mapRotors_spec (ringSettings cfg) (rotorPositions cfg) (rotorIDs cfg) 0)
      as [Hf Ht].
    destruct (forallb inCatalog (rotorIDs cfg)).
    + destruct (Ht eq_refl) as [rs [Hrs [Hlen _]]]. rewrite Hrs in H0.
      cbn [bind] in H0. injection H0 as <-. auto.
    + rewrite (Hf eq_refl) in H0. discriminate.
  - destruct IH as [I1 [I2 I3]].
    destruct (encryptChar_frame e e' c v Hstep) as [F1 [F2 F3]].
    repeat split; congruence.
Qed.

Lemma settings_are_kept_witness :
  let cfg := mkConfig [0; 1; 2] [0; 4; 21] [3; 2; 1] [("E", "N")]%char in
  let e0 := mkEnigma [ mkRotor "EKMFLGDQVZNTOWYHXUSPAIBRCJ" "Q" 3 0
                     ; mkRotor "AJDKSIRUXBLHWTMCQGZNPYFVOE" "E" 2 4
                     ; mkRotor "BDFHJLCPRTXVZNYEIWGAKMUSQO" "V" 1 21 ]
                     [("E", "N")]%char in
  let e := mkEnigma [ mkRotor "EKMFLGDQVZNTOWYHXUSPAIBRCJ" "Q" 3 1
                    ; mkRotor "AJDKSIRUXBLHWTMCQGZNPYFVOE" "E" 2 6
                    ; mkRotor "BDFHJLCPRTXVZNYEIWGAKMUSQO" "V" 1 22 ]
                    [("E", "N")]%char in
  newEnigma cfg = Normal e0 /\ reachable cfg e
  /\ plugboardPairs e = plugPairs cfg
  /\ map fixedPart (rotors e) = map fixedPart (rotors e0).
Proof.
  intros cfg e0 e.
  assert (H0 : newEnigma cfg = Normal e0) by reflexivity.
  assert (Hr : reachable cfg e).
  { apply (reach_step cfg e0 "X"%char e (signal e (Chr "X")));
      [apply reach_new; exact H0 | reflexivity]. }
  split; [exact H0 |]. split; [exact Hr |].
  exact (proj2 (settings_are_kept cfg e0 e H0 Hr)).
Defined.

(** ** A rotor at any setting *)

(** X12. For a catalog rotor whose position and ring setting are any
    integers of magnitude at most 2^51, not only those in [0,25],
    [forward] and [backward] are inverse to each other on the letters,
    in both orders. *)
Theorem rotor_inverse_any_setting (r : Rotor) (x : ascii) :
  catalogRotor r = true -> exactRotor r = true -> isLetter x = true ->
  (exists y, forward r (Chr x) = Chr y /\ isLetter y = true
             /\ backward r (Chr y) = Chr x)
  /\ (exists y, backward r (Chr x) = Chr y /\ isLetter y = true
                /\ forward r (Chr y) = Chr x).
Proof.
  intros Hc _ Hx. pose proof (permTable_catalog r Hc) as Hp. split.
  - apply forward_letter; assumption.
  - apply backward_letter; assumption.
Qed.

Lemma rotor_inverse_any_setting_witness :
  let r := mkRotor "BDFHJLCPRTXVZNYEIWGAKMUSQO" "V" (-40) 1000 in
  catalogRotor r = true /\ exactRotor r = true /\ isLetter "M" = true
  /\ exists y, backward r (Chr "M") = Chr y /\ isLetter y = true
               /\ forward r (Chr y) = Chr "M".
Proof.
  intros r. split; [reflexivity |]. split; [reflexivity |]. split; [reflexivity |].
  exact (proj2 (rotor_inverse_any_setting r "M" eq_refl eq_refl eq_refl)).
Defined.

(** X13. Within positions and ring settings of magnitude at most 2^51,
    a rotor's substitution depends on its position and ring setting
    only through their difference modulo 26: two rotors with the same
    wiring and congruent differences transform every value alike, in
    both directions. *)
Theorem rotor_offset (r r' : Rotor) (c : value) :
  wiring r = wiring r' ->
  exactRotor r = true -> exactRotor r' = true ->
  (position r - ringSetting r) mod 26 = (position r' - ringSetting r') mod 26 ->
  forward r c = forward r' c /\ backward r c = backward r' c.
Proof.
  intros Hw _ _ Hoff. unfold forward, backward. rewrite Hw, !mod_spec. split; f_equal.
  - replace (indexOf alphabet c + position r - ringSetting r)
      with (indexOf alphabet c + (position r - ringSetting r)) by lia.
    replace (indexOf alphabet c + position r' - ringSetting r')
      with (indexOf alphabet c + (position r' - ringSetting r')) by lia.
    rewrite <- Zplus_mod_idemp_r, Hoff, Zplus_mod_idemp_r. reflexivity.
  - replace (indexOf (wiring r') c - position r + ringSetting r)
      with (indexOf (wiring r') c - (position r - ringSetting r)) by lia.
    replace (indexOf (wiring r') c - position r' + ringSetting r')
      with (indexOf (wiring r') c - (position r' - ringSetting r')) by lia.
    rewrite <- Zminus_mod_idemp_r, Hoff, Zminus_mod_idemp_r. reflexivity.
Qed.

Lemma rotor_offset_witness :
  let r := mkRotor "EKMFLGDQVZNTOWYHXUSPAIBRCJ" "Q" 5 3 in
  let r' := mkRotor "EKMFLGDQVZNTOWYHXUSPAIBRCJ" "Q" 0 24 in
  wiring r = wiring r' /\ exactRotor r = true /\ exactRotor r' = true
  /\ (position r - ringSetting r) mod 26 = (position r' - ringSetting r') mod 26
  /\ forward r (Chr "G") = forward r' (Chr "G").
Proof.
  intros r r'. split; [reflexivity |]. split; [reflexivity |].
  split; [reflexivity |]. split; [reflexivity |].
  exact (proj1 (rotor_offset r r' (Chr "G") eq_refl eq_refl eq_refl eq_refl)).
Defined.

(** ** Texts in pieces *)







(** ** The plugboard prompt *)

Lemma isUpperAZ_isLetter (c : ascii) : isUpperAZ c = isLetter c.
Proof. destruct c as [[] [] [] [] [] [] [] []]; reflexivity. Qed.

Lemma matchPairs_two (a b : ascii) (rest : string) :
  matchPairs (String a (String b rest))
  = if isUpperAZ a && isUpperAZ b then (a, b) :: matchPairs rest
    else matchPairs (String b rest).
Proof. reflexivity. Qed.

Lemma matchPairs_letters (s : string) :
  letterPairs (matchPairs s) = true
  /\ forall a, letterPairs (matchPairs (String a s)) = true.
Proof.
  induction s as [| b rest [IH1 IH2]]; [split; reflexivity |].
  split; [apply IH2 |]. intros a. rewrite matchPairs_two.
  destruct (isUpperAZ a && isUpperAZ b) eqn:E; [| apply IH2].
  apply andb_true_iff in E as [Ea Eb]. rewrite isUpperAZ_isLetter in Ea, Eb.
  unfold letterPairs in *. cbn [forallb fst snd]. rewrite Ea, Eb, IH1. reflexivity.
Qed.

Lemma matchPairs_length (s : string) :
  (2 * List.length (matchPairs s) <= String.length s)%nat
  /\ forall a, (2 * List.length (matchPairs (String a s)) <= S (String.length s))%nat.
Proof.
  induction s as [| b rest [IH1 IH2]]; [split; cbn; intros; lia |].
  split; [apply IH2 |]. intros a. rewrite matchPairs_two.
  destruct (isUpperAZ a && isUpperAZ b).
  - cbn [List.length String.length]. lia.
  - specialize (IH2 b). cbn [String.length] in *. lia.
Qed.

Lemma toUpperCase_length (s : string) :
  String.length (toUpperCase s) = String.length s.
Proof. induction s as [| c s IH]; simpl; [reflexivity | rewrite IH; reflexivity]. Qed.

Lemma toUpperCase_idem (s : string) : toUpperCase (toUpperCase s) = toUpperCase s.
Proof.
  induction s as [| c s IH]; simpl; [reflexivity |].
  rewrite toUpperCaseChar_idem, IH. reflexivity.
Qed.

Lemma matchPairs_space (s : string) : matchPairs (String " " s) = matchPairs s.
Proof. destruct s as [| b rest]; reflexivity. Qed.

Lemma writePairs_cons (a b : ascii) (p : ascii * ascii) (rest : list (ascii * ascii)) :
  writePairs ((a, b) :: p :: rest)
  = String a (String b (String " " (writePairs (p :: rest)))).
Proof. reflexivity. Qed.

(** X15. For an answer of 7-bit ASCII characters, the pairs read from
    the plugboard answer are pairs of uppercase letters, at most one
    pair for every two characters typed, and the answer may be typed in
    either case. *)
Theorem plug_prompt_pairs (plugStr : string) :
  asciiText plugStr = true ->
  letterPairs (parsePlugPairs plugStr) = true
  /\ (2 * List.length (parsePlugPairs plugStr) <= String.length plugStr)%nat
  /\ parsePlugPairs (toUpperCase plugStr) = parsePlugPairs plugStr.
Proof.
  intros _. unfold parsePlugPairs. split; [apply matchPairs_letters |]. split.
  - rewrite <- (toUpperCase_length plugStr). apply matchPairs_length.
  - rewrite toUpperCase_idem. reflexivity.
Qed.

Lemma plug_prompt_pairs_witness :
  asciiText "ab, Cd;xyz" = true
  /\ letterPairs (parsePlugPairs "ab, Cd;xyz") = true
  /\ parsePlugPairs "ab, Cd;xyz" = [("A", "B"); ("C", "D"); ("X", "Y")]%char.
Proof.
  split; [reflexivity |].
  split; [exact (proj1 (plug_prompt_pairs "ab, Cd;xyz" eq_refl)) | reflexivity].
Defined.

(** X16. An answer written the way the prompt asks for it is read back
    exactly: two-letter words of uppercase letters separated by single
    spaces give their pairs, in order. *)
Theorem plug_prompt_round_trip (pairs : list (ascii * ascii)) :
  letterPairs pairs = true ->
  parsePlugPairs (writePairs pairs) = pairs.
Proof.
  unfold parsePlugPairs, letterPairs.
  induction pairs as [| [a b] rest IH]; [reflexivity |].
  cbn [forallb fst snd]. intros H. apply andb_true_iff in H as [Hab Hrest].
  apply andb_true_iff in Hab as [Ha Hb]. specialize (IH Hrest).
  assert (Hm : isUpperAZ a && isUpperAZ b = true)
    by (rewrite !isUpperAZ_isLetter, Ha, Hb; reflexivity).
  destruct rest as [| p rest].
  - cbn [writePairs toUpperCase].
    rewrite !toUpperCaseChar_letter by assumption.
    rewrite matchPairs_two, Hm. reflexivity.
  - rewrite writePairs_cons. cbn [toUpperCase].
    rewrite !toUpperCaseChar_letter by assumption.
    change (toUpperCaseChar " ") with " "%char.
    rewrite matchPairs_two, Hm, matchPairs_space, IH. reflexivity.
Qed.

Lemma plug_prompt_round_trip_witness :
  let pairs := [("A", "B"); ("C", "D"); ("B", "Z")]%char in
  letterPairs pairs = true /\ writePairs pairs = "AB CD BZ"
  /\ parsePlugPairs "AB CD BZ" = pairs.
Proof.
  intros pairs. split; [reflexivity |]. split; [reflexivity |].
  exact (plug_prompt_round_trip pairs eq_refl).
Defined.

(** ** The cipher of one state *)

(** X17. At any state of a usable machine whose positions and ring
    settings are integers of magnitude at most 2^51 the keystroke is
    one-to-one: two different letters never come out as the same
    character. *)
Theorem encryptChar_injective (e e1 e2 : Enigma) (c1 c2 : ascii) (v : value) :
  usableMachine e -> exactMachine e = true ->
  isLetter c1 = true -> isLetter c2 = true ->
  encryptChar e c1 = Normal (e1, v) -> encryptChar e c2 = Normal (e2, v) ->
  c1 = c2.
Proof.
  intros He _ L1 L2 H1 H2.
  destruct (encryptChar_usable e c1 He L1) as [e1' [d1 [E1 [_ [_ [_ B1]]]]]].
  destruct (encryptChar_usable e c2 He L2) as [e2' [d2 [E2 [_ [_ [_ B2]]]]]].
  rewrite E1 in H1. rewrite E2 in H2.
  assert (Hd : d1 = d2) by congruence. subst d2. congruence.
Qed.

Lemma encryptChar_injective_witness :
  let e := mkEnigma [ mkRotor "EKMFLGDQVZNTOWYHXUSPAIBRCJ" "Q" 0 0
                    ; mkRotor "AJDKSIRUXBLHWTMCQGZNPYFVOE" "E" 0 0
                    ; mkRotor "BDFHJLCPRTXVZNYEIWGAKMUSQO" "V" 0 0 ] [] in
  validMachine e = true /\ exactMachine e = true
  /\ forall c e' v, isLetter c = true ->
       encryptChar e c = Normal (e', v) -> encryptChar e "A" = Normal (e', v) ->
       c = "A"%char.
Proof.
  intros e. split; [reflexivity |]. split; [reflexivity |].
  intros c e' v Hc H1 H2.
  assert (He : usableMachine e).
  { split; [cbn; lia | apply validMachine_sound; reflexivity]. }
  exact (encryptChar_injective e e' e' c "A" v He eq_refl Hc eq_refl H1 H2).
Defined.

(** X18. In the output of a usable machine whose positions and ring
    settings are integers of magnitude at most 2^51, every letter of a
    7-bit ASCII text, of either case, is replaced at its own position
    by an uppercase letter other than its uppercase form. *)
Theorem ciphertext_differs (e : Enigma) (text : string) :
  usableMachine e -> exactMachine e = true -> asciiText text = true ->
  exists e' out,
    process e text = Normal (e', out)
    /\ forall i c, String.get i text = Some c ->
                   isLetter (toUpperCaseChar c) = true ->
                   exists d, String.get i out = Some d
                             /\ isLetter d = true /\ d <> toUpperCaseChar c.
Proof.
  intros He _ _. unfold process. rewrite toUpperCase_chars.
  destruct (mapEncrypt_usable (map toUpperCaseChar (list_ascii_of_string text)) e He)
    as [e' [ds [H [_ [F _]]]]].
  exists e', (string_of_list_ascii ds). rewrite H. cbn [bind]. rewrite join_chars.
  split; [reflexivity |]. intros i c Hi Hc.
  rewrite get_nth_error in *. rewrite list_ascii_of_string_of_list_ascii.
  apply (map_nth_error toUpperCaseChar) in Hi.
  destruct (Forall2_nth_error _ _ _ F i _ Hi) as [d [Hd Hk]].
  exists d. unfold keyed in Hk. rewrite Hc in Hk. tauto.
Qed.

Lemma ciphertext_differs_witness :
  let e := mkEnigma [ mkRotor "EKMFLGDQVZNTOWYHXUSPAIBRCJ" "Q" 0 0
                    ; mkRotor "AJDKSIRUXBLHWTMCQGZNPYFVOE" "E" 0 0
                    ; mkRotor "BDFHJLCPRTXVZNYEIWGAKMUSQO" "V" 0 0 ] [] in
  validMachine e = true /\ exactMachine e = true /\ asciiText "a b" = true
  /\ exists e' out, process e "a b" = Normal (e', out)
       /\ exists d, String.get 2 out = Some d /\ isLetter d = true /\ d <> "B"%char.
Proof.
  intros e. split; [reflexivity |]. split; [reflexivity |]. split; [reflexivity |].
  assert (He : usableMachine e).
  { split; [cbn; lia | apply validMachine_sound; reflexivity]. }
  destruct (ciphertext_differs e "a b" He eq_refl eq_refl) as [e' [out [H Hpos]]].
  exists e', out. split; [exact H |].
  exact (Hpos 2%nat "b"%char eq_refl eq_refl).
Defined.

(** ** The right rotor counts the letters *)

Lemma stepTimes_step (n : nat) (r : Rotor) :
  stepTimes n (step r) = step (stepTimes n r).
Proof. induction n as [| n IH]; [reflexivity |]. cbn [stepTimes]. rewrite IH. reflexivity. Qed.

Lemma stepRotorsTimes_right (n : nat) (l m r : Rotor) (rest : list Rotor)
    (pairs : list (ascii * ascii)) :
  exists l' m',
    stepRotorsTimes n (mkEnigma (l :: m :: r :: rest) pairs)
    = Normal (mkEnigma (l' :: m' :: stepTimes n r :: rest) pairs).
Proof.
  revert l m r. induction n as [| n IH]; intros l m r.
  - exists l, m. reflexivity.
  - cbn [stepRotorsTimes]. rewrite stepRotors_three. cbn [bind].
    destruct (IH (if atNotch m then step l else l)
                 (if atNotch r then step (if atNotch m then step m else m)
                  else if atNotch m then step m else m)
                 (step r)) as [l' [m' H]].
    exists l', m'. rewrite H, stepTimes_step. reflexivity.
Qed.

(** X19. The right rotor counts the letters: after a text with [n]
    letters the third rotor has been stepped exactly [n] times, whatever
    the other rotors did, and the rotors after the third and the
    plugboard are as before. *)
Theorem right_rotor_counts_letters (l m r : Rotor) (rest : list Rotor)
    (pairs : list (ascii * ascii)) (text : string) :
  exists l' m',
    stateAfter (process (mkEnigma (l :: m :: r :: rest) pairs) text)
    = Normal (mkEnigma
                (l' :: m'
                 :: stepTimes (countLetters (list_ascii_of_string (toUpperCase text))) r
                 :: rest) pairs).
Proof.
  unfold process.
  pose proof (mapEncrypt_state (list_ascii_of_string (toUpperCase text))
                (mkEnigma (l :: m :: r :: rest) pairs)) as Hs.
  destruct (stepRotorsTimes_right
              (countLetters (list_ascii_of_string (toUpperCase text)))
              l m r rest pairs) as [l' [m' Hn]].
  exists l', m'. rewrite <- Hn, <- Hs. unfold stateAfter.
  destruct (mapEncrypt (mkEnigma (l :: m :: r :: rest) pairs)
              (list_ascii_of_string (toUpperCase text))) as [[e' vs] |]; reflexivity.
Qed.
